(** * Consistency checker for pom.xml and dependabot.yml

    A shallow embedding of [.github/scripts/check-pom-consistency.py]:
    the walk over the parsed manifest, the coordinate extractor, the
    indentation-driven block extractor, the coverage matcher and the
    four checks of [main], followed by the properties proved about them.

    Conventions of the embedding.
    - A Python [str] is a [string]; a character is a code point below 256.
    - A parsed manifest is an [Element] tree (tag, text, children), which
      is what [ElementTree] hands to the script once comments and
      processing instructions have been dropped by the parser.
    - [id(e)] is an integer that differs for distinct live objects.  An
      element is located by its path from the root and [id_of] assigns
      the integer; it is only assumed to be injective.
    - Iterating a Python [set] yields its elements in an order that the
      program does not control; [set_order] stands for that order. *)

From Stdlib Require Import Ascii NArith.
From stdpp Require Import gmap strings list sorting.

(** ** Characters and the [str] methods used by the script *)

Module Py.

Definition code (c : ascii) : N := N_of_ascii c.

Definition between (lo hi : N) (c : ascii) : bool :=
  ((lo <=? code c) && (code c <=? hi))%N.

(** [str.isspace], which is also what [\s] matches in a [str] pattern. *)
Definition isspace (c : ascii) : bool :=
  between 9 13 c || between 28 32 c || between 133 133 c || between 160 160 c.

(** What [\w] matches in a [str] pattern: alphanumerics and [_]. *)
Definition isword (c : ascii) : bool :=
  between 48 57 c || between 65 90 c || between 95 95 c || between 97 122 c
  || between 170 170 c || between 178 179 c || between 181 181 c
  || between 185 186 c || between 188 190 c || between 192 214 c
  || between 216 246 c || between 248 255 c.

(** Line boundaries recognised by [str.splitlines] (apart from CR LF). *)
Definition islinebreak (c : ascii) : bool :=
  between 10 13 c || between 28 30 c || between 133 133 c.

Definition is_lf (c : ascii) : bool := between 10 10 c.
Definition is_cr (c : ascii) : bool := between 13 13 c.

Fixpoint lstrip (s : string) : string :=
  match s with
  | EmptyString => EmptyString
  | String c s' => if isspace c then lstrip s' else s
  end.

(** [rstrip] keeps a character when it is not a space or when something
    is kept after it. *)
Fixpoint rstrip (s : string) : string :=
  match s with
  | EmptyString => EmptyString
  | String c s' =>
      match rstrip s' with
      | EmptyString => if isspace c then EmptyString else String c EmptyString
      | r => String c r
      end
  end.

Definition strip (s : string) : string := rstrip (lstrip s).

Fixpoint startswith (s prefix : string) : bool :=
  match prefix, s with
  | EmptyString, _ => true
  | String p prefix', String c s' => bool_decide (c = p) && startswith s' prefix'
  | String _ _, EmptyString => false
  end.

(** [s[len(prefix):]] once [startswith s prefix] is known. *)
Fixpoint drop_prefix (s prefix : string) : string :=
  match prefix, s with
  | String _ prefix', String _ s' => drop_prefix s' prefix'
  | _, _ => s
  end.

Fixpoint all_chars (f : ascii → bool) (s : string) : bool :=
  match s with
  | EmptyString => true
  | String c s' => f c && all_chars f s'
  end.

(** The longest prefix of characters satisfying [f]. *)
Fixpoint take_while (f : ascii → bool) (s : string) : string :=
  match s with
  | EmptyString => EmptyString
  | String c s' => if f c then String c (take_while f s') else EmptyString
  end.

Fixpoint splitlines_from (skip_lf : bool) (cur : string) (s : string)
  : list string :=
  match s with
  | EmptyString => match cur with EmptyString => [] | _ => [String.rev cur] end
  | String c s' =>
      if skip_lf && is_lf c then splitlines_from false EmptyString s'
      else if is_cr c then String.rev cur :: splitlines_from true EmptyString s'
      else if islinebreak c then String.rev cur :: splitlines_from false EmptyString s'
      else splitlines_from false (String c cur) s'
  end.

Definition splitlines (s : string) : list string := splitlines_from false EmptyString s.

(** [bool(s)] for a string, and for an optional string ([None] is falsy). *)
Definition truthy (s : string) : bool :=
  match s with EmptyString => false | _ => true end.

End Py.

(** ** The parsed manifest *)

#[local] Unset Elimination Schemes.
Inductive Element : Type :=
  Elem (tag : string) (text : option string) (children : list Element).
#[local] Set Elimination Schemes.

Definition tag (e : Element) : string :=
  match e with Elem t _ _ => t end.
Definition text (e : Element) : option string :=
  match e with Elem _ x _ => x end.
Definition children (e : Element) : list Element :=
  match e with Elem _ _ cs => cs end.

(** The position of an element: the child indices from the root. *)
Definition path : Type := list nat.

(** An element together with its position, the handle that [iter] yields. *)
Definition Node : Type := path * Element.

(** Document order below (and including) the element at position [p]. *)
Fixpoint walk (p : path) (e : Element) : list Node :=
  match e with
  | Elem _ _ cs =>
      (p, e) ::
      (fix kids (i : nat) (cs : list Element) : list Node :=
         match cs with
         | [] => []
         | c :: cs' => walk (p ++ [i]) c ++ kids (S i) cs'
         end) 0 cs
  end.

Fixpoint walk_children (p : path) (i : nat) (cs : list Element) : list Node :=
  match cs with
  | [] => []
  | c :: cs' => walk (p ++ [i]) c ++ walk_children p (S i) cs'
  end.

(** [Element.iter(tag)]: the element itself and all its descendants, in
    document order, restricted to one tag. *)
Definition iter (n : Node) (t : string) : list Node :=
  filter (λ m : Node, tag m.2 = t) (walk n.1 n.2).

(** [Element.find(tag)]: the first direct child with that tag. *)
Definition find (e : Element) (t : string) : option Element :=
  snd <$> list_find (λ c, tag c = t) (children e).

(** The element at a position below [e], when there is one. *)
Fixpoint subelement (e : Element) (p : path) : option Element :=
  match p with
  | [] => Some e
  | i :: p' =>
      match children e !! i with
      | Some c => subelement c p'
      | None => None
      end
  end.

Definition NS : string := "http://maven.apache.org/POM/4.0.0".

(** [f"{{{NS}}}name"] *)
Definition qn (name : string) : string := "{" +:+ NS +:+ "}" +:+ name.

(** [x.text] when [x is not None and x.text] holds, i.e. when the child
    was found and its text is neither [None] nor the empty string. *)
Definition truthy_text (x : option Element) : option string :=
  match x with
  | Some c =>
      match text c with
      | Some t => if Py.truthy t then Some t else None
      | None => None
      end
  | None => None
  end.

Definition artifact_coords (element : Element) : string * string :=
  let gid := find element (qn "groupId") in
  let aid := find element (qn "artifactId") in
  (match truthy_text gid with Some t => Py.strip t | None => "unknown" end,
   match truthy_text aid with Some t => Py.strip t | None => "unknown" end).

(** The old name is kept as an alias. *)
Definition plugin_coords := artifact_coords.

(** ** The block extractor *)

Module Re.

Definition is_quote (c : ascii) : bool :=
  Py.between 34 34 c || Py.between 39 39 c.

(** The pattern [package-ecosystem:\s*maven\b] tried at the start of [s]. *)
Definition ecosystem_at (s : string) : bool :=
  Py.startswith s "package-ecosystem:"
  && (let r := Py.lstrip (Py.drop_prefix s "package-ecosystem:") in
      Py.startswith r "maven"
      && match Py.drop_prefix r "maven" with
         | String c _ => negb (Py.isword c)
         | _ => true
         end).

(** [re.search(r"package-ecosystem:\s*maven\b", l)]: tried at every
    position of the line. *)
Fixpoint search_ecosystem (l : string) : bool :=
  ecosystem_at l
  || match l with
     | String _ l' => search_ecosystem l'
     | _ => false
     end.

(** [re.match(key + r"\s*$", s)]: the key, then only white space. *)
Definition match_key (key s : string) : bool :=
  Py.startswith s key && Py.all_chars Py.isspace (Py.drop_prefix s key).

Definition groups : string → bool := match_key "groups:".
Definition maven_plugins : string → bool := match_key "maven-plugins:".
Definition patterns : string → bool := match_key "patterns:".

(** [re.match] of the list-item pattern (a dash, white space, an optional
    quote, then one or more characters that are neither quote nor space, then
    an optional quote); the result is [m.group(1)]. *)
Definition match_item (s : string) : option string :=
  match s with
  | String "-" r =>
      let r := Py.lstrip r in
      let r := match r with
               | String c r' => if is_quote c then r' else r
               | _ => r
               end in
      match Py.take_while (λ c, negb (is_quote c || Py.isspace c)) r with
      | String c g => Some (String c g)
      | _ => None
      end
  | _ => None
  end.

End Re.

(** [len(line) - len(line.lstrip())] *)
Definition indent_of (line : string) : nat :=
  String.length line - String.length (Py.lstrip line).

(** [not s or s.startswith("#")] for the stripped line [s]. *)
Definition skipped (s : string) : bool :=
  negb (Py.truthy s) || Py.startswith s "#".

(** [stop_indent is not None and indent <= stop_indent] *)
Definition at_or_below (indent : nat) (stop_indent : option nat) : bool :=
  match stop_indent with
  | Some k => indent <=? k
  | None => false
  end.

(** The loop of [find_line], at index [i] with [rest = lines[i:]]. *)
Fixpoint find_line_from (i : nat) (rest : list string)
    (pattern : string → bool) (stop_indent : option nat) : option nat :=
  match rest with
  | [] => None
  | l :: rest' =>
      let s := Py.strip l in
      if skipped s then find_line_from (S i) rest' pattern stop_indent
      else if at_or_below (indent_of l) stop_indent then None
      else if pattern s then Some i
      else find_line_from (S i) rest' pattern stop_indent
  end.

Definition find_line (lines : list string) (start : nat)
    (pattern : string → bool) (stop_indent : option nat) : option nat :=
  find_line_from (start + 1) (drop (start + 1) lines) pattern stop_indent.

(** [lines[i]]; every index the extractor uses was returned by a search
    over [lines], so the default is never taken. *)
Definition line_at (lines : list string) (i : nat) : string :=
  default EmptyString (lines !! i).

(** The chain of markers: each [None] is one of the early [return []]. *)
Definition locate_patterns_line (lines : list string) : option nat :=
  maven_line ← fst <$> list_find (λ l, Re.search_ecosystem l = true) lines;
  let maven_indent := indent_of (line_at lines maven_line) in
  groups_line ← find_line lines maven_line Re.groups (Some maven_indent);
  let groups_indent := indent_of (line_at lines groups_line) in
  mp_line ← find_line lines groups_line Re.maven_plugins (Some groups_indent);
  let mp_indent := indent_of (line_at lines mp_line) in
  find_line lines mp_line Re.patterns (Some mp_indent).

(** The final loop over [lines[patterns_line + 1:]]. *)
Fixpoint collect_patterns (patterns_indent : nat) (rest : list string)
  : list string :=
  match rest with
  | [] => []
  | line :: rest' =>
      let s := Py.strip line in
      if skipped s then collect_patterns patterns_indent rest'
      else if indent_of line <=? patterns_indent then []
      else match Re.match_item s with
           | Some g => g :: collect_patterns patterns_indent rest'
           | None => collect_patterns patterns_indent rest'
           end
  end.

Definition extract_from_lines (lines : list string) : list string :=
  match locate_patterns_line lines with
  | None => []
  | Some patterns_line =>
      let patterns_indent := indent_of (line_at lines patterns_line) in
      collect_patterns patterns_indent (drop (patterns_line + 1) lines)
  end.

Definition extract_maven_plugins_patterns (text : string) : list string :=
  extract_from_lines (Py.splitlines text).

(** ** The coverage matcher *)

(** [fnmatch.fnmatch(name, pat)] of the Python library, after [fnmatch.py]:
    the pattern is translated to a regular expression, and the name matches
    when [re.match] accepts it.  The case normalisation that [fnmatch]
    applies first is the identity on POSIX, and the cache of compiled
    patterns does not change a result.

    [translate] is the first loop of the library's function: it turns the
    pattern into [STAR] markers and regular expressions of one character.
    [assemble] is its second loop, which builds [(?s:...)\Z] out of them,
    and [match_parts] is what the regular-expression engine computes on the
    result. *)
Module Fnmatch.

(** A member of a character set of the regular expression. *)
Inductive item : Type :=
| One (c : ascii)
| Range (lo hi : ascii).

(** What the first loop appends to [res]: the marker [STAR], [.], an
    escaped character, a set [[...]] as the engine reads it, or [(?!)],
    which matches nowhere. *)
Inductive token : Type :=
| Star
| Any
| Lit (c : ascii)
| Class (negated : bool) (items : list item)
| Never.

Definition is_bang (c : ascii) : bool := Py.between 33 33 c.
Definition is_close (c : ascii) : bool := Py.between 93 93 c.
Definition is_hyphen (c : ascii) : bool := Py.between 45 45 c.
Definition is_backslash (c : ascii) : bool := Py.between 92 92 c.
Definition is_caret (c : ascii) : bool := Py.between 94 94 c.
Definition is_open (c : ascii) : bool := Py.between 91 91 c.

(** The characters [&], [~] and [|], which [re.sub(r'([&~|])', ...)]
    escapes. *)
Definition is_set_op (c : ascii) : bool :=
  Py.between 38 38 c || Py.between 126 126 c || Py.between 124 124 c.

Definition backslash : ascii := ascii_of_N 92.
Definition hyphen : ascii := ascii_of_N 45.
Definition caret : ascii := ascii_of_N 94.

(** The characters up to the first closing bracket, when there is one. *)
Fixpoint until_close (s : string) : option string :=
  match s with
  | String c s' =>
      if is_close c then Some EmptyString
      else String c <$> until_close s'
  | _ => None
  end.

(** [pat[i:j]], what stands between the brackets, given the text after the
    opening one: a leading [!] and then a leading closing bracket belong to
    the class. *)
Definition class_body (s : string) : option string :=
  match s with
  | String c s' =>
      if is_bang c then
        match s' with
        | String d s'' =>
            if is_close d then String c <$> (String d <$> until_close s'')
            else String c <$> until_close s'
        | _ => None
        end
      else if is_close c then String c <$> until_close s'
      else until_close s
  | _ => None
  end.

(** [s.replace(c, '\\' + c)] for every character [c] that satisfies [f]. *)
Fixpoint escape (f : ascii → bool) (s : string) : string :=
  match s with
  | String c s' =>
      if f c then String backslash (String c (escape f s'))
      else String c (escape f s')
  | _ => EmptyString
  end.

Definition add_head (c : ascii) (chunks : list string) : list string :=
  match chunks with
  | chunk :: chunks' => String c chunk :: chunks'
  | [] => [String c EmptyString]
  end.

(** The loop [k = pat.find('-', k, j)]: the text is cut at a hyphen, which
    is looked for after [skip] characters of the current chunk; once one is
    found the search goes on two characters into the next chunk
    ([i = k+1; k = k+3]).  The last element is [pat[i:j]], what is left when
    no hyphen is found. *)
Fixpoint chunks_from (skip : nat) (s : string) : list string :=
  match s with
  | String c s' =>
      match skip with
      | S k => add_head c (chunks_from k s')
      | O =>
          if is_hyphen c then EmptyString :: chunks_from 2 s'
          else add_head c (chunks_from 0 s')
      end
  | _ => [EmptyString]
  end.

(** [if chunk: chunks.append(chunk) else: chunks[-1] += '-'] *)
Fixpoint close_chunks (chunks : list string) : list string :=
  match chunks with
  | chunk :: chunks' =>
      match chunks' with
      | [EmptyString] => [chunk +:+ String hyphen EmptyString]
      | _ => chunk :: close_chunks chunks'
      end
  | [] => []
  end.

(** The chunks of [stuff]: the search starts after the first character, or
    after the first two when the first one is [!]. *)
Definition chunks (stuff : string) : list string :=
  match stuff with
  | String c _ =>
      close_chunks (chunks_from (if is_bang c then 2 else 1) stuff)
  | _ => []
  end.

Fixpoint last_char (s : string) : option ascii :=
  match s with
  | String c s' =>
      match s' with
      | EmptyString => Some c
      | _ => last_char s'
      end
  | _ => None
  end.

(** [s[:-1]] *)
Fixpoint but_last (s : string) : string :=
  match s with
  | String c s' =>
      match s' with
      | EmptyString => EmptyString
      | _ => String c (but_last s')
      end
  | _ => EmptyString
  end.

Definition first_char (s : string) : option ascii :=
  match s with
  | String c _ => Some c
  | _ => None
  end.

(** [s[1:]] *)
Definition but_first (s : string) : string :=
  match s with
  | String _ s' => s'
  | _ => EmptyString
  end.

(** The loop [for k in range(len(chunks)-1, 0, -1)], which runs from the
    last pair of neighbours to the first: when the character before a cut
    is greater than the one after it, both are dropped and the two chunks
    are glued.  A chunk that is compared is never empty
    (see [merge_ranges_chunks]). *)
Fixpoint merge_ranges (chunks : list string) : list string :=
  match chunks with
  | a :: chunks' =>
      match merge_ranges chunks' with
      | b :: rest =>
          match last_char a, first_char b with
          | Some x, Some y =>
              if (Py.code y <? Py.code x)%N
              then (but_last a +:+ but_first b) :: rest
              else a :: b :: rest
          | _, _ => a :: b :: rest
          end
      | [] => [a]
      end
  | [] => []
  end.


(** ['-'.join(chunks)] *)
Fixpoint join_hyphen (chunks : list string) : string :=
  match chunks with
  | [] => EmptyString
  | [chunk] => chunk
  | chunk :: chunks' => chunk +:+ String hyphen (join_hyphen chunks')
  end.

Fixpoint has_hyphen (s : string) : bool :=
  match s with
  | String c s' => is_hyphen c || has_hyphen s'
  | _ => false
  end.

(** [stuff] once backslashes, hyphens and the set operators are escaped and
    the empty ranges are removed. *)
Definition set_text (stuff : string) : string :=
  escape is_set_op
    (if has_hyphen stuff then
       join_hyphen
         ((λ s, escape is_hyphen (escape is_backslash s))
            <$> merge_ranges (chunks stuff))
     else escape is_backslash stuff).

(** The regular-expression parser reads the text of a set character by
    character, a backslash together with the character after it.  The
    escapes that [set_text] produces stand for the escaped character. *)
Fixpoint units (s : string) : list (bool * ascii) :=
  match s with
  | String c s' =>
      if is_backslash c then
        match s' with
        | String d s'' => (true, d) :: units s''
        | _ => [(false, c)]
        end
      else (false, c) :: units s'
  | _ => []
  end.

(** A hyphen that is not escaped. *)
Definition is_range_sign (u : bool * ascii) : bool :=
  negb u.1 && is_hyphen u.2.

(** The members of a set: [lo-hi] is a range when something follows the
    hyphen, and everything else stands for itself. *)
Fixpoint set_items (us : list (bool * ascii)) : list item :=
  match us with
  | u :: us' =>
      match us' with
      | d :: v :: us'' =>
          if is_range_sign d then Range u.2 v.2 :: set_items us''
          else One u.2 :: set_items us'
      | _ => One u.2 :: set_items us'
      end
  | [] => []
  end.

(** [[text]] as the parser reads it: a leading [^] negates the set. *)
Definition regex_set (text : string) : token :=
  match text with
  | String c rest =>
      if is_caret c then Class true (set_items (units rest))
      else Class false (set_items (units text))
  | _ => Class false []
  end.

(** What the first loop appends for the class [[stuff]]. *)
Definition class_token (stuff : string) : token :=
  match set_text stuff with
  | EmptyString => Never
  | String c rest =>
      if is_bang c then
        match rest with
        | EmptyString => Any
        | _ => regex_set (String caret rest)
        end
      else if is_caret c || is_open c
      then regex_set (String backslash (String c rest))
      else regex_set (String c rest)
  end.

(** The first loop over the pattern.  [skip] counts the characters of a
    class that has been read ahead and is still to be stepped over, and
    [star] tells whether the last thing appended is [STAR], in which case
    another [*] appends nothing. *)
Fixpoint translate_from (skip : nat) (star : bool) (pat : string)
  : list token :=
  match pat with
  | String c pat' =>
      match skip with
      | S k => translate_from k star pat'
      | O =>
          if Py.between 42 42 c then
            if star then translate_from 0 true pat'
            else Star :: translate_from 0 true pat'
          else if Py.between 63 63 c then Any :: translate_from 0 false pat'
          else if Py.between 91 91 c then
            match class_body pat' with
            | Some stuff =>
                class_token stuff
                :: translate_from (S (String.length stuff)) false pat'
            | None => Lit c :: translate_from 0 false pat'
            end
          else Lit c :: translate_from 0 false pat'
      end
  | _ => []
  end.

Definition translate (pat : string) : list token :=
  translate_from 0 false pat.

Definition in_item (c : ascii) (i : item) : bool :=
  match i with
  | One d => bool_decide (c = d)
  | Range lo hi => ((Py.code lo <=? Py.code c) && (Py.code c <=? Py.code hi))%N
  end.

Definition in_class (negated : bool) (items : list item) (c : ascii) : bool :=
  xorb negated (existsb (in_item c) items).




(** Whether the regular expression of one character accepts [c]. *)
Definition accepts (t : token) (c : ascii) : bool :=
  match t with
  | Any => true
  | Lit d => bool_decide (c = d)
  | Class negated items => in_class negated items c
  | Star | Never => false
  end.

(** The pieces of the regular expression that the second loop builds:
    a run of one-character expressions, [(?>.*?fixed)], and [.*]. *)
Inductive part : Type :=
| Fixed (fixed : list token)
| Atomic (fixed : list token)
| DotStar.

(** The second loop.  [fixed] holds the expressions met since the last
    [STAR], and [after_star] tells whether there was one: the run before the
    first [STAR] stands as it is, a run between two of them goes into an
    atomic group, and the last run follows [.*]. *)
Fixpoint assemble_from (fixed : list token) (after_star : bool)
    (inp : list token) : list part :=
  match inp with
  | [] => if after_star then [DotStar; Fixed fixed] else [Fixed fixed]
  | Star :: inp' =>
      (if after_star then Atomic fixed else Fixed fixed)
      :: assemble_from [] true inp'
  | t :: inp' => assemble_from (fixed ++ [t]) after_star inp'
  end.

Definition assemble (inp : list token) : list part :=
  assemble_from [] false inp.

(** Matching a run of one-character expressions at the start of [s]: what
    is left of [s], when they all accept. *)
Fixpoint match_fixed (fixed : list token) (s : string) : option string :=
  match fixed with
  | [] => Some s
  | t :: fixed' =>
      match s with
      | String c s' => if accepts t c then match_fixed fixed' s' else None
      | _ => None
      end
  end.

(** [(?>.*?fixed)]: the lazy [.*?] gives up as few characters as it can, so
    the run is tried at each place from left to right; the group is atomic,
    so the first place where it matches is kept for good. *)
Fixpoint match_lazy (fixed : list token) (s : string) : option string :=
  match match_fixed fixed s with
  | Some rest => Some rest
  | None =>
      match s with
      | String _ s' => match_lazy fixed s'
      | _ => None
      end
  end.

(** [.*] followed by [rest]: every split of [s] is tried. *)
Fixpoint match_any_then (rest : string → bool) (s : string) : bool :=
  rest s
  || match s with
     | String _ s' => match_any_then rest s'
     | _ => false
     end.

(** The parts in a row, then [\Z]: the end of the string. *)
Fixpoint match_parts (parts : list part) (s : string) : bool :=
  match parts with
  | [] => negb (Py.truthy s)
  | Fixed fixed :: parts' =>
      match match_fixed fixed s with
      | Some rest => match_parts parts' rest
      | None => false
      end
  | Atomic fixed :: parts' =>
      match match_lazy fixed s with
      | Some rest => match_parts parts' rest
      | None => false
      end
  | DotStar :: parts' => match_any_then (match_parts parts') s
  end.

(** [re.compile(translate(pat)).match(name) is not None] *)
Definition fnmatchcase (name pat : string) : bool :=
  match_parts (assemble (translate pat)) name.

Definition fnmatch (name pat : string) : bool := fnmatchcase name pat.

(** What the pattern means, one token at a time: [*] stands for any text,
    [?] for one character, a set for one of the characters it accepts, and
    any other character for itself. *)
Fixpoint matches (ts : list token) (s : string) : bool :=
  match ts with
  | [] => negb (Py.truthy s)
  | Star :: ts' =>
      (fix star (s : string) : bool :=
         matches ts' s
         || match s with
            | String _ s' => star s'
            | _ => false
            end) s
  | Any :: ts' =>
      match s with
      | String _ s' => matches ts' s'
      | _ => false
      end
  | Lit c :: ts' =>
      match s with
      | String d s' => bool_decide (d = c) && matches ts' s'
      | _ => false
      end
  | Class negated items :: ts' =>
      match s with
      | String d s' => in_class negated items d && matches ts' s'
      | _ => false
      end
  | Never :: _ => false
  end.

(** The same meaning as a relation: a star takes any text [u]. *)
Inductive Matches : list token → string → Prop :=
| Matches_nil : Matches [] EmptyString
| Matches_star ts u s : Matches ts s → Matches (Star :: ts) (u +:+ s)
| Matches_any ts d s : Matches ts s → Matches (Any :: ts) (String d s)
| Matches_lit ts c s : Matches ts s → Matches (Lit c :: ts) (String c s)
| Matches_class ts negated items d s :
    in_class negated items d = true →
    Matches ts s → Matches (Class negated items :: ts) (String d s).

End Fnmatch.

(** [fnmatch.fnmatch(f"{group_id}:DUMMY", pattern)] *)
Definition covers_group_id (pattern group_id : string) : bool :=
  Fnmatch.fnmatch (group_id +:+ ":DUMMY") pattern.

(** ** The messages *)

Definition stray_message (g a version section : string) : string :=
  "pom.xml: " +:+ g +:+ ":" +:+ a +:+ " has <version>" +:+ version
  +:+ "</version>" +:+ " defined outside <" +:+ section +:+ ">".

Definition missing_block_message : string :=
  "dependabot.yml: could not find patterns for the 'maven-plugins' group".

Definition uncovered_message (gid : string) : string :=
  "dependabot.yml: plugin groupId '" +:+ gid +:+ "' from <pluginManagement>"
  +:+ " is not covered by any pattern in the 'maven-plugins' group".

Definition stale_message (pattern : string) : string :=
  "dependabot.yml: pattern '" +:+ pattern +:+ "' in the 'maven-plugins' group"
  +:+ " does not match any plugin groupId in <pluginManagement>".

(** ** The checker *)

Section Checker.

(** [id(...)] of the element at a position, and the order in which a set
    of strings is iterated. *)
Context (id_of : path → Z) (set_order : gset string → list string).

(** For every [outer] element of the tree, the ids of the [inner]
    elements found by iterating it. *)
Definition ids_within (outer inner : string) (root : Node) : gset Z :=
  foldl (λ ids o,
           foldl (λ ids (n : Node), ids ∪ {[ id_of n.1 ]}) ids (iter o inner))
        ∅ (iter root outer).

Definition pm_plugin_ids (root : Node) : gset Z :=
  ids_within (qn "pluginManagement") (qn "plugin") root.

Definition dm_dependency_ids (root : Node) : gset Z :=
  ids_within (qn "dependencyManagement") (qn "dependency") root.

Definition plugin_dependency_ids (root : Node) : gset Z :=
  ids_within (qn "plugin") (qn "dependency") root.

(** The body of the two version loops once the element is known not to
    be exempt: a message when a [version] child with text is found. *)
Definition stray_version (section : string) (errors : list string)
    (e : Element) : list string :=
  match truthy_text (find e (qn "version")) with
  | Some version_text =>
      let '(g, a) := artifact_coords e in
      errors ++ [stray_message g a (Py.strip version_text) section]
  | None => errors
  end.

(** Check 1, one iteration. *)
Definition check_plugin (pm_ids : gset Z) (errors : list string)
    (plugin : Node) : list string :=
  if decide (id_of plugin.1 ∈ pm_ids) then errors
  else stray_version "pluginManagement" errors plugin.2.

(** Check 2, one iteration. *)
Definition check_dependency (dm_ids plugin_dep_ids : gset Z)
    (errors : list string) (dep : Node) : list string :=
  if decide (id_of dep.1 ∈ dm_ids ∨ id_of dep.1 ∈ plugin_dep_ids) then errors
  else stray_version "dependencyManagement" errors dep.2.

(** Collecting the managed groupIds, one iteration. *)
Definition collect_group_id (pm_ids : gset Z) (pm_group_ids : gset string)
    (plugin : Node) : gset string :=
  if decide (id_of plugin.1 ∈ pm_ids) then
    match truthy_text (find plugin.2 (qn "groupId")) with
    | Some t => pm_group_ids ∪ {[ Py.strip t ]}
    | None => pm_group_ids
    end
  else pm_group_ids.

(** Coverage check, one iteration. *)
Definition check_covered (patterns : list string) (errors : list string)
    (gid : string) : list string :=
  if existsb (λ p, covers_group_id p gid) patterns then errors
  else errors ++ [uncovered_message gid].

(** Stale-pattern check, one iteration. *)
Definition check_stale (pm_group_ids : gset string) (errors : list string)
    (pattern : string) : list string :=
  if existsb (λ gid, covers_group_id pattern gid) (set_order pm_group_ids)
  then errors
  else errors ++ [stale_message pattern].

Definition collect_pm_group_ids (root : Node) : gset string :=
  foldl (collect_group_id (pm_plugin_ids root)) ∅ (iter root (qn "plugin")).

(** The part of [main] on the manifest alone: checks 1 and 2. *)
Definition version_errors (root : Node) : list string :=
  let errors := [] in
  let pm_ids := pm_plugin_ids root in
  let errors := foldl (check_plugin pm_ids) errors (iter root (qn "plugin")) in
  let dm_ids := dm_dependency_ids root in
  let plugin_dep_ids := plugin_dependency_ids root in
  foldl (check_dependency dm_ids plugin_dep_ids) errors
        (iter root (qn "dependency")).

(** The part of [main] on the patterns, continuing from [errors]. *)
Definition coverage_errors (pm_group_ids : gset string)
    (patterns : list string) (errors : list string) : list string :=
  match patterns with
  | [] => errors ++ [missing_block_message]
  | _ =>
      let errors :=
        foldl (check_covered patterns) errors
              (merge_sort String.le (set_order pm_group_ids)) in
      foldl (check_stale pm_group_ids) errors patterns
  end.

(** [main], from the parsed manifest and the text of the configuration
    to the list [errors] that it goes on to print. *)
Definition main (pom : Element) (dependabot_text : string) : list string :=
  let root : Node := ([], pom) in
  let errors := version_errors root in
  let pm_group_ids := collect_pm_group_ids root in
  let patterns := extract_maven_plugins_patterns dependabot_text in
  coverage_errors pm_group_ids patterns errors.

End Checker.


(** ** What the version checks are expected to report *)

(** The element at position [p] is at or below an element tagged
    [section]: some prefix of [p] leads to such an element. *)
Definition insideb (pom : Element) (section : string) (p : path) : bool :=
  existsb (λ k, match subelement pom (take k p) with
                | Some a => bool_decide (tag a = section)
                | None => false
                end) (seq 0 (S (length p))).

(** The message for an element that carries a version with text. *)
Definition stray_report (section : string) (e : Element) : list string :=
  match truthy_text (find e (qn "version")) with
  | Some v =>
      [stray_message (artifact_coords e).1 (artifact_coords e).2
                     (Py.strip v) section]
  | None => []
  end.

Definition rule_A_report (pom : Element) (n : Node) : list string :=
  if insideb pom (qn "pluginManagement") n.1 then []
  else stray_report "pluginManagement" n.2.

Definition rule_B_report (pom : Element) (n : Node) : list string :=
  if insideb pom (qn "dependencyManagement") n.1 || insideb pom (qn "plugin") n.1
  then []
  else stray_report "dependencyManagement" n.2.

(** How often a message occurs in a report. *)
Definition occurrences (m : string) (l : list string) : nat :=
  length (filter (λ x, x = m) l).

(** The managed plugins that declare a groupId with text, by position:
    the trimmed text for such a plugin, nothing for any other element. *)
Definition managed_group_id (pom : Element) (n : Node) : option string :=
  if insideb pom (qn "pluginManagement") n.1
  then Py.strip <$> truthy_text (find n.2 (qn "groupId"))
  else None.

(** The characters of a string. *)
Definition chars : string → list ascii := String.list_ascii_of_string.

(** A message of one of the two version checks. *)
Definition is_stray (m : string) : Prop :=
  ∃ g a v section, m = stray_message g a v section.

(** The set of trimmed groupIds declared by managed plugins. *)
Definition managed_group_ids (pom : Element) : gset string :=
  list_to_set (omap (managed_group_id pom) (iter ([], pom) (qn "plugin"))).

(** ** Sample inputs *)

(** An assignment of ids: distinct positions get distinct integers. *)
Definition path_id (p : path) : Z := Z.pos (encode p).

Definition leaf (name value : string) : Element :=
  Elem (qn name) (Some value) [].

Definition sample_plugin (g a : string) (v : option string) : Element :=
  Elem (qn "plugin") None
       ([leaf "groupId" g; leaf "artifactId" a]
        ++ match v with Some v => [leaf "version" v] | None => [] end).

(** One managed plugin, the same plugin again outside management with a
    version, and a plugin-local dependency with a version. *)
Definition sample_pom : Element :=
  Elem (qn "project") None
    [Elem (qn "build") None
       [Elem (qn "pluginManagement") None
          [Elem (qn "plugins") None
             [sample_plugin "com.example.tools" "checker" (Some "1.0")]];
        Elem (qn "plugins") None
          [sample_plugin "com.example.tools" "checker" (Some "1.2.3");
           Elem (qn "plugin") None
             [leaf "artifactId" "runner";
              Elem (qn "dependencies") None
                [Elem (qn "dependency") None
                   [leaf "groupId" "org.helper"; leaf "artifactId" "lib";
                    leaf "version" "4.5"]]]]]].

Definition newline : string := String (ascii_of_N 10) EmptyString.

Definition unlines (ls : list string) : string :=
  foldr (λ l r, l +:+ newline +:+ r) EmptyString ls.

Definition sample_lines (items : list string) : list string :=
  ["version: 2";
   "updates:";
   "  - package-ecosystem: maven";
   "    directory: /";
   "    groups:";
   "      maven-plugins:";
   "        patterns:"]
  ++ items
  ++ ["    schedule:"; "      interval: weekly"].

Definition sample_config : string :=
  unlines (sample_lines ["          - 'other.group:*'"]).

(** The same configuration with the [patterns:] key present but no item
    under it. *)
Definition empty_block_config : string := unlines (sample_lines []).

(** A manifest whose only managed plugin declares no groupId. *)
Definition groupless_pom : Element :=
  Elem (qn "project") None
    [Elem (qn "build") None
       [Elem (qn "pluginManagement") None
          [Elem (qn "plugins") None
             [Elem (qn "plugin") None [leaf "artifactId" "checker"]]]]].

Definition unknown_config : string :=
  unlines (sample_lines ["          - 'unknown:*'"]).

(** An element whose groupId is three spaces. *)
Definition blank_group_plugin : Element :=
  Elem (qn "plugin") None [leaf "groupId" "   "; leaf "artifactId" "checker"].

(** The characters that [fnmatch] treats specially, and the separator. *)
Definition is_wild (c : ascii) : bool :=
  Py.between 42 42 c || Py.between 63 63 c || Py.between 91 91 c.

Definition is_colon (c : ascii) : bool := Py.between 58 58 c.

(** A pattern without wildcard characters and without separator. *)
Definition bare (pattern : string) : bool :=
  Py.all_chars (λ c, negb (is_wild c || is_colon c)) pattern.

(** ** The extractor read on the lines that remain *)

(** [find_line] returning the line found and the lines after it. *)
Fixpoint find_after (rest : list string) (pattern : string → bool)
    (stop_indent : option nat) : option (string * list string) :=
  match rest with
  | [] => None
  | l :: rest' =>
      let s := Py.strip l in
      if skipped s then find_after rest' pattern stop_indent
      else if at_or_below (indent_of l) stop_indent then None
      else if pattern s then Some (l, rest')
      else find_after rest' pattern stop_indent
  end.

(** The first line holding the ecosystem marker and the lines after it. *)
Fixpoint find_ecosystem (lines : list string) : option (string * list string) :=
  match lines with
  | [] => None
  | l :: rest =>
      if Re.search_ecosystem l then Some (l, rest) else find_ecosystem rest
  end.

(** The [patterns:] line and the lines after it. *)
Definition locate_by_suffix (lines : list string)
  : option (string * list string) :=
  match find_ecosystem lines with
  | None => None
  | Some (maven, rest) =>
      match find_after rest Re.groups (Some (indent_of maven)) with
      | None => None
      | Some (groups, rest) =>
          match find_after rest Re.maven_plugins (Some (indent_of groups)) with
          | None => None
          | Some (mp, rest) => find_after rest Re.patterns (Some (indent_of mp))
          end
      end
  end.

Definition extract_by_suffix (lines : list string) : list string :=
  match locate_by_suffix lines with
  | None => []
  | Some (patterns_line, rest) => collect_patterns (indent_of patterns_line) rest
  end.

(** [r'] is [r], possibly with the line [c] put in somewhere. *)
Definition Inserted (c : string) (r r' : list string) : Prop :=
  r' = r ∨ ∃ a b, r = a ++ b ∧ r' = a ++ c :: b.

(** Two search results agree up to the inserted line. *)
Definition same_found (c : string) (o o' : option (string * list string)) : Prop :=
  match o, o' with
  | Some (l, t), Some (l', t') => l = l' ∧ Inserted c t t'
  | None, None => True
  | _, _ => False
  end.

(** A commented-out ecosystem entry, and the sample configuration with it
    put in just above the live entry. *)
Definition marker_comment : string := "  # - package-ecosystem: maven".

Definition commented_lines (items : list string) : list string :=
  take 2 (sample_lines items) ++ marker_comment :: drop 2 (sample_lines items).

Definition sample_item : string := "          - 'other.group:*'".

(** A manifest with one plugin, fully inside management. *)
Definition managed_only_pom : Element :=
  Elem (qn "project") None
    [Elem (qn "build") None
       [Elem (qn "pluginManagement") None
          [Elem (qn "plugins") None
             [sample_plugin "com.example.tools" "checker" (Some "1.0")]]]].

Definition covering_config : string :=
  unlines (sample_lines ["          - 'com.example.*'"]).

(** A configuration with no [groups:] key under the maven entry. *)
Definition no_groups_config : string :=
  unlines ["version: 2";
           "updates:";
           "  - package-ecosystem: maven";
           "    directory: /";
           "    schedule:";
           "      interval: weekly"].

(** ** Further definitions *)

(** A line that the extractor looks at: neither blank nor a comment. *)
Definition significant (l : string) : bool := negb (skipped (Py.strip l)).

(** What remains of [main] after the checks: every message goes to the
    error stream behind a prefix and the exit status is 1, or a single
    confirmation is printed and the script ends normally. *)
Record Outcome : Type := {
  stderr : list string;
  stdout : list string;
  exit_status : Z
}.

Definition ok_message : string :=
  "OK: plugin/dependency versions and dependabot patterns are consistent".

Definition finish (errors : list string) : Outcome :=
  match errors with
  | [] => {| stderr := []; stdout := [ok_message]; exit_status := 0 |}
  | _ => {| stderr := (λ e, "ERROR: " +:+ e) <$> errors;
            stdout := [];
            exit_status := 1 |}
  end.

(** The whole script on a parsed manifest and the configuration text. *)
Definition run (id_of : path → Z) (set_order : gset string → list string)
    (pom : Element) (dependabot_text : string) : Outcome :=
  finish (main id_of set_order pom dependabot_text).

(** A character that may occur in an extracted pattern. *)
Definition pattern_char (c : ascii) : bool :=
  negb (Re.is_quote c || Py.isspace c).

(** A list item as it is written in the configuration: indentation, a dash,
    a space, and the pattern between optional quotes. *)
Definition spaces (n : nat) : string :=
  String.string_of_list_ascii (replicate n " "%char).

Definition quoted (quote : option ascii) (g : string) : string :=
  match quote with
  | Some q => String q (g +:+ String q EmptyString)
  | None => g
  end.

Definition item_line (indent : nat) (quote : option ascii) (g : string) : string :=
  spaces indent +:+ "- " +:+ quoted quote g.

Record Item : Type := {
  item_indent : nat;
  item_quote : option ascii;
  item_pattern : string
}.

Definition render_item (it : Item) : string :=
  item_line (item_indent it) (item_quote it) (item_pattern it).

(** An item under a key indented by [k]: indented deeper, quoted with a
    quote character if at all, and holding a pattern that is not empty and
    has neither quotes nor white space. *)
Definition well_formed_item (k : nat) (it : Item) : Prop :=
  k < item_indent it
  ∧ from_option Re.is_quote true (item_quote it) = true
  ∧ item_pattern it ≠ EmptyString
  ∧ Py.all_chars pattern_char (item_pattern it) = true.

Definition sample_items : list Item :=
  [ {| item_indent := 10; item_quote := Some "'"%char;
       item_pattern := "org.apache.maven.plugins:*" |};
    {| item_indent := 12; item_quote := None;
       item_pattern := "com.example.*" |} ].

(** A string without wildcard characters, and one without the separator. *)
Definition literal (s : string) : bool :=
  Py.all_chars (λ c, negb (is_wild c)) s.

Definition colon_free (s : string) : bool :=
  Py.all_chars (λ c, negb (is_colon c)) s.

(** Strictly ascending in the order of [sorted] on strings. *)
Definition string_lt (a b : string) : Prop := String.le a b ∧ a ≠ b.

(** ** The version list of [generate-site-index.py] *)

Module Site.

(** [re.split(r'[.\-]', v)]: the texts between dots and dashes; there is
    always at least one, and it may be empty. *)
Definition is_sep (c : ascii) : bool := Py.between 45 46 c.

Fixpoint split (v : string) : list string :=
  match v with
  | EmptyString => [EmptyString]
  | String c v' =>
      if is_sep c then EmptyString :: split v'
      else match split v' with
           | x :: xs => String c x :: xs
           | [] => [String c EmptyString]
           end
  end.

(** [str.isdigit]: not empty and made of digits, which below 256 are the
    ten decimal digits and the superscripts one, two and three. *)
Definition isdigit_char (c : ascii) : bool :=
  Py.between 48 57 c || Py.between 178 179 c || Py.between 185 185 c.

Definition isdigit (x : string) : bool :=
  Py.truthy x && Py.all_chars isdigit_char x.

Definition is_decimal (c : ascii) : bool := Py.between 48 57 c.

(** [int(x)] for a text without sign, space or underscore: the number
    written in base ten, or [None] for the [ValueError] raised on the empty
    text and on a character that is not a decimal digit.  (The limit that
    recent interpreters put on the number of digits is left out.) *)
Fixpoint int_from (acc : N) (x : string) : option N :=
  match x with
  | EmptyString => Some acc
  | String c x' =>
      if is_decimal c then int_from (10 * acc + (Py.code c - 48)) x'
      else None
  end.

Definition int (x : string) : option N :=
  if Py.truthy x then int_from 0 x else None.

(** One element of the key: [(0, int(x))] or [(1, x)]. *)
Inductive component : Type :=
| Num (n : N)
| Word (x : string).

Definition component_of (x : string) : option component :=
  if isdigit x then Num <$> int x else Some (Word x).

(** [version_key(v)], or [None] when building the tuple raises. *)
Definition version_key (v : string) : option (list component) :=
  mapM component_of (split v).

(** The order of Python on the pairs and on the tuples of pairs. *)
Definition component_compare (a b : component) : comparison :=
  match a, b with
  | Num n, Num m => (n ?= m)%N
  | Num _, Word _ => Lt
  | Word _, Num _ => Gt
  | Word x, Word y => String.compare x y
  end.

Fixpoint key_compare (k1 k2 : list component) : comparison :=
  match k1, k2 with
  | [], [] => Eq
  | [], _ :: _ => Lt
  | _ :: _, [] => Gt
  | a :: k1', b :: k2' =>
      match component_compare a b with
      | Eq => key_compare k1' k2'
      | c => c
      end
  end.

Definition key_lt (k1 k2 : list component) : Prop := key_compare k1 k2 = Lt.
Definition key_le (k1 k2 : list component) : Prop := key_compare k1 k2 ≠ Gt.

(** [sorted(..., reverse=True)] on names that carry their keys: descending,
    names with equal keys staying in the order of the input. *)
Definition keyed : Type := string * list component.

Fixpoint insert_desc (x : keyed) (l : list keyed) : list keyed :=
  match l with
  | [] => [x]
  | y :: l' =>
      match key_compare x.2 y.2 with
      | Lt => y :: insert_desc x l'
      | _ => x :: l
      end
  end.

Definition sorted_desc (l : list keyed) : list keyed := foldr insert_desc [] l.

(** The entries of the store, each a name and whether it is a directory;
    [re.match(r'^\d', name)] asks for a first character that is a decimal
    digit. *)
Definition starts_with_digit (name : string) : bool :=
  match name with
  | String c _ => is_decimal c
  | EmptyString => false
  end.

Definition release_names (entries : list (string * bool)) : list string :=
  fst <$> filter (λ e : string * bool,
                    e.2 = true ∧ starts_with_digit e.1 = true) entries.

(** The list [versions], or [None] when a key cannot be built. *)
Definition versions (entries : list (string * bool)) : option (list string) :=
  ks ← mapM (λ name, (λ k, (name, k)) <$> version_key name)
            (release_names entries);
  Some (fst <$> sorted_desc ks).

(** [read_stored_version], given the content of the file or [None] when
    opening or reading it raises [OSError]. *)
Definition read_stored_version (file : option string) : option string :=
  Py.strip <$> file.

(** [read_stored_version('latest') or (versions[0] if versions else '')] *)
Definition latest_version (file : option string) (versions : list string)
  : string :=
  match read_stored_version file with
  | Some (String c s) => String c s
  | _ => default EmptyString (head versions)
  end.

End Site.

(** A name ranks at least as high as another in the release list. *)
Definition ranks_above (a b : string) : Prop :=
  ∃ ka kb, Site.version_key a = Some ka ∧ Site.version_key b = Some kb
           ∧ Site.key_le kb ka.


(** ** Shape of the chunks of a character class *)








(** A run of tokens without [STAR], as they stand between two stars. *)
Definition star_free (ts : list Fnmatch.token) : Prop :=
  Forall (λ t, t ≠ Fnmatch.Star) ts.

(** * Properties *)

(** ** The tree walk *)

Lemma Element_ind (P : Element → Prop) :
  (∀ t x cs, Forall P cs → P (Elem t x cs)) → ∀ e, P e.
Proof.
  intros step. fix IH 1. intros [t x cs]. apply step.
  induction cs as [|c cs IHcs]; constructor; [apply IH | exact IHcs].
Qed.

Lemma walk_unfold p e : walk p e = (p, e) :: walk_children p 0 (children e).
Proof.
  destruct e as [t x cs]. simpl. f_equal.
  generalize 0. induction cs as [|c cs IHcs]; intros i; simpl; [done|].
  by rewrite IHcs.
Qed.

Lemma subelement_app e q s :
  subelement e (q ++ s) = subelement e q ≫= λ a, subelement a s.
Proof.
  revert e. induction q as [|i q IHq]; intros e; simpl; [done|].
  destruct (children e !! i); simpl; [apply IHq | done].
Qed.

Lemma subelement_snoc e q i :
  subelement e (q ++ [i]) = subelement e q ≫= λ a, children a !! i.
Proof.
  rewrite subelement_app. destruct (subelement e q) as [a|]; simpl; [|done].
  by destruct (children a !! i).
Qed.

(** A node is visited exactly when it sits at some position below the
    starting element; the position recorded is the absolute one. *)
Lemma elem_of_walk (n : Node) p e :
  n ∈ walk p e ↔ ∃ s, n.1 = p ++ s ∧ subelement e s = Some n.2.
Proof.
  revert p. induction e as [t x cs IH] using Element_ind. intros p.
  rewrite walk_unfold. simpl children.
  assert (∀ i, n ∈ walk_children p i cs ↔
    ∃ j c s, cs !! j = Some c ∧ n.1 = p ++ (i + j) :: s
             ∧ subelement c s = Some n.2) as Hkids.
  { induction IH as [|c cs Hc _ IHcs]; intros i; simpl.
    - split; [by intros ?%elem_of_nil | by intros (j & c & s & ? & _)].
    - rewrite elem_of_app, Hc, IHcs. split.
      + intros [(s & Hs & Hsub)|(j & c' & s & Hj & Hs & Hsub)].
        * exists 0, c, s. rewrite Hs, <-(assoc_L (++)), Nat.add_0_r. done.
        * exists (S j), c', s. replace (i + S j) with (S i + j) by lia. done.
      + intros ([|j] & c' & s & Hj & Hs & Hsub); simplify_eq/=.
        * left. exists s. rewrite Hs, <-(assoc_L (++)), Nat.add_0_r. done.
        * right. exists j, c', s. rewrite Hs. split_and!; [done| |done]. do 2 f_equal. lia. }
  rewrite elem_of_cons, Hkids. split.
  - intros [->|(j & c & s & Hj & Hs & Hsub)].
    + exists []. by rewrite (right_id_L [] (++)).
    + exists (j :: s). simpl. by rewrite Hj.
  - intros ([|j s] & Hs & Hsub); simpl in *.
    + left. destruct n; simplify_eq/=. by rewrite (right_id_L [] (++)).
    + right. destruct (cs !! j) as [c|] eqn:Hj; [|done]. by exists j, c, s.
Qed.

Lemma walk_children_position p i cs (m : Node) :
  m ∈ walk_children p i cs → ∃ j s, m.1 = p ++ (i + j) :: s.
Proof.
  revert i. induction cs as [|c cs IHcs]; intros i; simpl.
  - by intros ?%elem_of_nil.
  - rewrite elem_of_app, elem_of_walk. intros [(s & Hs & _)|Hm].
    + exists 0, s. by rewrite Hs, <-(assoc_L (++)), Nat.add_0_r.
    + destruct (IHcs _ Hm) as (j & s & Hs). exists (S j), s.
      rewrite Hs. do 2 f_equal. lia.
Qed.

Lemma walk_NoDup p e : NoDup (walk p e).*1.
Proof.
  revert p. induction e as [t x cs IH] using Element_ind. intros p.
  rewrite walk_unfold. simpl children.
  rewrite fmap_cons. apply NoDup_cons. split.
  - intros ((q & e') & Hq & (j & s & Hs)%walk_children_position)%list_elem_of_fmap.
    simpl in *. subst q. revert Hs. rewrite <-(right_id_L [] (++) p) at 1.
    by intros ?%(inj (app p)).
  - generalize 0. induction IH as [|c cs Hc _ IHcs]; intros i; simpl.
    + constructor.
    + rewrite fmap_app. apply NoDup_app. split_and!; [apply Hc| |apply IHcs].
      intros q ((q1 & e1) & -> & (s & Hs & _)%elem_of_walk)%list_elem_of_fmap.
      intros ((q2 & e2) & Hq & (j & s' & Hs')%walk_children_position)%list_elem_of_fmap.
      simpl in *. rewrite Hq, Hs', <-(assoc_L (++)) in Hs.
      apply (inj (app p)) in Hs. simpl in Hs. injection Hs. lia.
Qed.

Lemma elem_of_iter (n : Node) p e t :
  n ∈ iter (p, e) t ↔
  tag n.2 = t ∧ ∃ s, n.1 = p ++ s ∧ subelement e s = Some n.2.
Proof. unfold iter. by rewrite list_elem_of_filter, elem_of_walk. Qed.

Lemma iter_NoDup n t : NoDup (iter n t).*1.
Proof.
  unfold iter. generalize (walk_NoDup n.1 n.2).
  induction (walk n.1 n.2) as [|m l IHl]; [done|].
  rewrite fmap_cons, NoDup_cons. intros [Hm Hl].
  rewrite filter_cons. case_decide; [|by auto].
  rewrite fmap_cons. apply NoDup_cons. split; [|by auto].
  intros (m' & Hm' & [_ ?]%list_elem_of_filter)%list_elem_of_fmap.
  apply Hm. apply list_elem_of_fmap. eauto.
Qed.

Lemma insideb_spec pom section p :
  insideb pom section p = true ↔
  ∃ q s a, p = q ++ s ∧ subelement pom q = Some a ∧ tag a = section.
Proof.
  unfold insideb. rewrite existsb_exists. split.
  - intros (k & _ & Hk). destruct (subelement pom (take k p)) as [a|] eqn:Ha; [|done].
    exists (take k p), (drop k p), a. rewrite take_drop.
    by apply bool_decide_eq_true in Hk.
  - intros (q & s & a & -> & Ha & Ht). exists (length q). split.
    + apply in_seq. rewrite length_app. lia.
    + rewrite take_app_length, Ha. by apply bool_decide_eq_true.
Qed.

(** ** The identity sets *)

Section Identity.

Context (id_of : path → Z) `{!Inj (=) (=) id_of}.

Lemma elem_of_foldl_ids (z : Z) (ids : gset Z) (l : list Node) :
  z ∈ foldl (λ ids (n : Node), ids ∪ {[ id_of n.1 ]}) ids l ↔
  z ∈ ids ∨ ∃ n, n ∈ l ∧ z = id_of n.1.
Proof.
  revert ids. induction l as [|m l IHl]; intros ids; simpl.
  - split; [auto|]. intros [?|(n & ?%elem_of_nil & _)]; done.
  - rewrite IHl, elem_of_union, elem_of_singleton. split.
    + intros [[?| ->]|(n & ? & ->)]; [auto|right..].
      * exists m. split; [left|done].
      * exists n. split; [by right|done].
    + intros [?|(n & [->|?]%elem_of_cons & ->)]; [auto..|]. right; eauto.
Qed.

Lemma elem_of_ids_within z outer inner root :
  z ∈ ids_within id_of outer inner root ↔
  ∃ o n, o ∈ iter root outer ∧ n ∈ iter o inner ∧ z = id_of n.1.
Proof.
  unfold ids_within.
  assert (∀ l (ids : gset Z),
    z ∈ foldl (λ ids o,
                 foldl (λ ids (n : Node), ids ∪ {[ id_of n.1 ]}) ids (iter o inner))
              ids l ↔
    z ∈ ids ∨ ∃ o n, o ∈ l ∧ n ∈ iter o inner ∧ z = id_of n.1) as Hgen.
  { induction l as [|o l IHl]; intros ids; simpl.
    - split; [auto|]. intros [?|(o & n & ?%elem_of_nil & _)]; done.
    - rewrite IHl, elem_of_foldl_ids. split.
      + intros [[?|(n & ? & ->)]|(o' & n & ? & ? & ->)]; [auto|right..].
        * exists o, n. split_and!; [left|done..].
        * exists o', n. split_and!; [by right|done..].
      + intros [?|(o' & n & [->|?]%elem_of_cons & ? & ->)]; [auto|eauto|].
        right. eauto. }
  rewrite Hgen. split; [|by auto]. by intros [?%not_elem_of_empty|?].
Qed.

(** For an element of the tree, having its id in the set collected for
    [outer] is the same as sitting at or below an [outer] element. *)
Lemma ids_within_inside pom outer inner (n : Node) :
  n ∈ iter ([], pom) inner →
  id_of n.1 ∈ ids_within id_of outer inner ([], pom) ↔
  insideb pom outer n.1 = true.
Proof.
  intros [Htag (s0 & Hs0 & Hsub)]%elem_of_iter. simpl in Hs0.
  rewrite elem_of_ids_within, insideb_spec. split.
  - intros ([q a] & [p e] & [Ha (sq & Hq & Hqa)]%elem_of_iter
            & [_ (s & Hp & _)]%elem_of_iter & Hid).
    simpl in *. apply (inj id_of) in Hid. subst. by exists sq, s, a.
  - intros (q & s & a & Hp & Ha & Ht). exists (q, a), n. split_and!; [| |done].
    + apply elem_of_iter. simpl. eauto.
    + apply elem_of_iter. split; [done|]. exists s. split; [done|].
      rewrite <-Hs0, Hp, subelement_app, Ha in Hsub. done.
Qed.

End Identity.

(** ** Strings as character lists *)

Lemma chars_app s1 s2 : chars (s1 +:+ s2) = chars s1 ++ chars s2.
Proof. induction s1 as [|c s1 IH]; simpl; [done|]. by rewrite <-IH. Qed.

Lemma chars_inj s1 s2 : chars s1 = chars s2 → s1 = s2.
Proof.
  intros H. rewrite <-(String.string_of_list_ascii_of_string s1),
    <-(String.string_of_list_ascii_of_string s2). unfold chars in H. by rewrite H.
Qed.

Lemma string_app_inv_tail s1 s2 t : s1 +:+ t = s2 +:+ t → s1 = s2.
Proof.
  intros H%(f_equal chars). rewrite !chars_app in H.
  by apply app_inv_tail, chars_inj in H.
Qed.

Lemma string_app_assoc s1 s2 s3 : (s1 +:+ s2) +:+ s3 = s1 +:+ (s2 +:+ s3).
Proof. apply chars_inj. by rewrite !chars_app, (assoc_L (++)). Qed.

(** ** The messages tell the rules apart *)

Lemma uncovered_message_inj g1 g2 :
  uncovered_message g1 = uncovered_message g2 → g1 = g2.
Proof.
  unfold uncovered_message. intros H%(inj (String.app _)).
  by apply string_app_inv_tail in H.
Qed.

Lemma stale_message_inj p1 p2 : stale_message p1 = stale_message p2 → p1 = p2.
Proof.
  unfold stale_message. intros H%(inj (String.app _)).
  by apply string_app_inv_tail in H.
Qed.

Lemma uncovered_not_stale g p : uncovered_message g ≠ stale_message p.
Proof. unfold uncovered_message, stale_message. cbv [String.append]. congruence. Qed.

Lemma uncovered_not_missing g : uncovered_message g ≠ missing_block_message.
Proof.
  unfold uncovered_message, missing_block_message. cbv [String.append]. congruence.
Qed.

Lemma stale_not_missing p : stale_message p ≠ missing_block_message.
Proof.
  unfold stale_message, missing_block_message. cbv [String.append]. congruence.
Qed.

Lemma stray_not_uncovered g a v section gid :
  stray_message g a v section ≠ uncovered_message gid.
Proof. unfold stray_message, uncovered_message. cbv [String.append]. congruence. Qed.

Lemma stray_not_stale g a v section p :
  stray_message g a v section ≠ stale_message p.
Proof. unfold stray_message, stale_message. cbv [String.append]. congruence. Qed.

Lemma stray_not_missing g a v section :
  stray_message g a v section ≠ missing_block_message.
Proof.
  unfold stray_message, missing_block_message. cbv [String.append]. congruence.
Qed.

(** The two version checks end their messages differently. *)
Lemma stray_sections_differ g a v g' a' v' :
  stray_message g a v "pluginManagement"
  ≠ stray_message g' a' v' "dependencyManagement".
Proof.
  unfold stray_message. intros H%(f_equal chars).
  rewrite !chars_app in H. apply (f_equal reverse) in H.
  rewrite !reverse_app in H.
  vm_compute (reverse (chars ">")) in H.
  vm_compute (reverse (chars "pluginManagement")) in H.
  vm_compute (reverse (chars "dependencyManagement")) in H.
  simpl in H. congruence.
Qed.

(** ** Loops that only append *)

Lemma foldl_appends {A} (step : list string → A → list string)
    (report : A → list string) (l : list A) :
  (∀ errors x, x ∈ l → step errors x = errors ++ report x) →
  ∀ errors, foldl step errors l = errors ++ flat_map report l.
Proof.
  induction l as [|x l IHl]; intros Hstep errors; simpl.
  - by rewrite (right_id_L [] (++)).
  - rewrite Hstep by left. rewrite IHl.
    + by rewrite <-(assoc_L (++)).
    + intros ???. apply Hstep. by right.
Qed.

Lemma stray_version_report section errors e :
  stray_version section errors e = errors ++ stray_report section e.
Proof.
  unfold stray_version, stray_report.
  destruct (truthy_text _); [|by rewrite (right_id_L [] (++))].
  by destruct (artifact_coords e).
Qed.

Lemma elem_of_flat_map {A B} (f : A → list B) (l : list A) (y : B) :
  y ∈ flat_map f l ↔ ∃ x, x ∈ l ∧ y ∈ f x.
Proof.
  rewrite list_elem_of_In, in_flat_map.
  by setoid_rewrite list_elem_of_In.
Qed.

(** ** Checks 1 and 2 *)

Section Versions.

Context (id_of : path → Z) `{!Inj (=) (=) id_of}.

Lemma check_plugin_report pom errors (n : Node) :
  n ∈ iter ([], pom) (qn "plugin") →
  check_plugin id_of (pm_plugin_ids id_of ([], pom)) errors n
  = errors ++ rule_A_report pom n.
Proof.
  intros Hn. unfold check_plugin, rule_A_report, pm_plugin_ids.
  pose proof (ids_within_inside id_of pom (qn "pluginManagement") _ n Hn) as Hin.
  case_decide as Hid.
  - apply Hin in Hid. by rewrite Hid, (right_id_L [] (++)).
  - destruct (insideb _ _ _); [by destruct Hid; apply Hin|].
    apply stray_version_report.
Qed.

Lemma check_dependency_report pom errors (n : Node) :
  n ∈ iter ([], pom) (qn "dependency") →
  check_dependency id_of (dm_dependency_ids id_of ([], pom))
    (plugin_dependency_ids id_of ([], pom)) errors n
  = errors ++ rule_B_report pom n.
Proof.
  intros Hn.
  unfold check_dependency, rule_B_report, dm_dependency_ids, plugin_dependency_ids.
  pose proof (ids_within_inside id_of pom (qn "dependencyManagement") _ n Hn) as Hdm.
  pose proof (ids_within_inside id_of pom (qn "plugin") _ n Hn) as Hpl.
  case_decide as Hid.
  - assert (insideb pom (qn "dependencyManagement") n.1
            || insideb pom (qn "plugin") n.1 = true) as ->.
    { apply orb_true_iff. destruct Hid; [left; by apply Hdm|right; by apply Hpl]. }
    by rewrite (right_id_L [] (++)).
  - destruct (insideb pom (qn "dependencyManagement") n.1) eqn:H1.
    { destruct Hid. left. by apply Hdm. }
    destruct (insideb pom (qn "plugin") n.1) eqn:H2.
    { destruct Hid. right. by apply Hpl. }
    apply stray_version_report.
Qed.

Lemma version_errors_report pom :
  version_errors id_of ([], pom)
  = flat_map (rule_A_report pom) (iter ([], pom) (qn "plugin"))
    ++ flat_map (rule_B_report pom) (iter ([], pom) (qn "dependency")).
Proof.
  unfold version_errors.
  rewrite (foldl_appends (check_plugin id_of _) (rule_A_report pom))
    by (intros; by apply check_plugin_report).
  rewrite (foldl_appends (check_dependency id_of _ _) (rule_B_report pom))
    by (intros; by apply check_dependency_report).
  done.
Qed.

End Versions.

(** ** Counting messages *)

Lemma occurrences_app m l1 l2 :
  occurrences m (l1 ++ l2) = occurrences m l1 + occurrences m l2.
Proof. unfold occurrences. by rewrite filter_app, length_app. Qed.

Lemma occurrences_none m l : (∀ x, x ∈ l → x ≠ m) → occurrences m l = 0.
Proof.
  intros H. unfold occurrences. induction l as [|x l IHl]; [done|].
  rewrite filter_cons. case_decide as Hx.
  - destruct (H x); [left|done].
  - apply IHl. intros ??. apply H. by right.
Qed.

Lemma occurrences_NoDup m l : NoDup l → m ∈ l → occurrences m l = 1.
Proof.
  unfold occurrences. induction 1 as [|x l Hx Hl IHl]; [by intros ?%elem_of_nil|].
  rewrite filter_cons. intros [->|Hm]%elem_of_cons.
  - rewrite decide_True by done. simpl. f_equal.
    apply (occurrences_none x). by intros ? ? ->.
  - rewrite decide_False by (by intros ->). auto.
Qed.

(** A loop that reports [f x] for the items failing a test. *)
Lemma occurrences_reported (f : string → string) (ok : string → bool) l y :
  (∀ x1 x2, f x1 = f x2 → x1 = x2) →
  occurrences (f y) (flat_map (λ x, if ok x then [] else [f x]) l)
  = if ok y then 0 else occurrences y l.
Proof.
  intros Hf. unfold occurrences. induction l as [|x l IHl]; simpl.
  - by destruct (ok y).
  - rewrite filter_app, length_app, IHl. rewrite (filter_cons _ x l).
    destruct (decide (x = y)) as [->|Hxy].
    + destruct (ok y); [done|]. rewrite filter_cons, decide_True by done. done.
    + destruct (ok x); simpl.
      * done.
      * rewrite filter_cons, decide_False by (by intros ?%Hf). done.
Qed.

Lemma not_elem_of_reported (f : string → string) (ok : string → bool) l m :
  (∀ x, f x ≠ m) → m ∉ flat_map (λ x, if ok x then [] else [f x]) l.
Proof.
  intros Hf (x & _ & Hm)%elem_of_flat_map. destruct (ok x).
  - by apply elem_of_nil in Hm.
  - apply list_elem_of_singleton in Hm. by apply (Hf x).
Qed.

(** ** The shape of the report *)

Lemma stray_version_stray section errors e :
  Forall is_stray errors → Forall is_stray (stray_version section errors e).
Proof.
  intros H. unfold stray_version. destruct (truthy_text _); [|done].
  destruct (artifact_coords e). apply Forall_app. split; [done|].
  repeat constructor. by eexists _, _, _, _.
Qed.

Lemma version_errors_stray id_of root : Forall is_stray (version_errors id_of root).
Proof.
  unfold version_errors.
  assert (∀ (step : list string → Node → list string) l errors,
    (∀ errors n, Forall is_stray errors → Forall is_stray (step errors n)) →
    Forall is_stray errors → Forall is_stray (foldl step errors l)) as Hloop.
  { intros step l. induction l as [|n l IHl]; intros errors Hstep He; simpl; auto. }
  apply Hloop; [|apply Hloop; [|constructor]].
  - intros errors n He. unfold check_dependency. case_decide; [done|].
    by apply stray_version_stray.
  - intros errors n He. unfold check_plugin. case_decide; [done|].
    by apply stray_version_stray.
Qed.

Lemma coverage_errors_missing set_order X errors :
  coverage_errors set_order X [] errors = errors ++ [missing_block_message].
Proof. done. Qed.

Lemma coverage_errors_report set_order X patterns errors :
  patterns ≠ [] →
  coverage_errors set_order X patterns errors
  = errors
    ++ flat_map (λ gid, if existsb (λ p, covers_group_id p gid) patterns
                        then [] else [uncovered_message gid])
                (merge_sort String.le (set_order X))
    ++ flat_map (λ p, if existsb (λ gid, covers_group_id p gid) (set_order X)
                      then [] else [stale_message p])
                patterns.
Proof.
  intros Hne. unfold coverage_errors. destruct patterns as [|p0 ps]; [done|].
  set (patterns := p0 :: ps).
  rewrite (foldl_appends (check_stale set_order X)
             (λ p, if existsb (λ gid, covers_group_id p gid) (set_order X)
                   then [] else [stale_message p])).
  2:{ intros errs p _. unfold check_stale.
      destruct (existsb _ _); [by rewrite (right_id_L [] (++))|done]. }
  rewrite (foldl_appends (check_covered patterns)
             (λ gid, if existsb (λ p, covers_group_id p gid) patterns
                     then [] else [uncovered_message gid])).
  2:{ intros errs gid _. unfold check_covered.
      destruct (existsb _ _); [by rewrite (right_id_L [] (++))|done]. }
  by rewrite <-(assoc_L (++)).
Qed.

Lemma coverage_errors_continues set_order X patterns errors :
  coverage_errors set_order X patterns errors
  = errors ++ coverage_errors set_order X patterns [].
Proof.
  destruct patterns as [|p ps]; [done|].
  by rewrite !(coverage_errors_report _ _ (p :: ps)).
Qed.

Lemma main_split id_of set_order pom dependabot_text :
  main id_of set_order pom dependabot_text
  = version_errors id_of ([], pom)
    ++ coverage_errors set_order (collect_pm_group_ids id_of ([], pom))
         (extract_maven_plugins_patterns dependabot_text) [].
Proof. unfold main. apply coverage_errors_continues. Qed.

Lemma occurrences_version_errors id_of root m :
  ¬ is_stray m → occurrences m (version_errors id_of root) = 0.
Proof.
  intros Hm. apply occurrences_none. intros x Hx ->.
  pose proof (version_errors_stray id_of root) as H.
  rewrite Forall_forall in H. by apply Hm, H.
Qed.

Lemma uncovered_not_stray gid : ¬ is_stray (uncovered_message gid).
Proof. intros (g & a & v & s & H). by eapply stray_not_uncovered. Qed.

Lemma stale_not_stray p : ¬ is_stray (stale_message p).
Proof. intros (g & a & v & s & H). by eapply stray_not_stale. Qed.

Lemma missing_not_stray : ¬ is_stray missing_block_message.
Proof. intros (g & a & v & s & H). by eapply stray_not_missing. Qed.

Lemma occurrences_not_elem m l : m ∉ l → occurrences m l = 0.
Proof. intros H. apply occurrences_none. by intros x ? ->. Qed.

Lemma existsb_false {A} (f : A → bool) l :
  existsb f l = false ↔ ∀ x, x ∈ l → f x = false.
Proof.
  rewrite <-not_true_iff_false, existsb_exists. split.
  - intros H x Hx. apply not_true_iff_false. intros ?. apply H.
    exists x. by rewrite <-list_elem_of_In.
  - intros H (x & Hx%list_elem_of_In & Hf). by rewrite H in Hf.
Qed.

Lemma existsb_true {A} (f : A → bool) l :
  existsb f l = true ↔ ∃ x, x ∈ l ∧ f x = true.
Proof. rewrite existsb_exists. by setoid_rewrite list_elem_of_In. Qed.

(** ** The managed groupIds *)

Section Managed.

Context (id_of : path → Z) `{!Inj (=) (=) id_of}.

Lemma collect_group_id_spec pom (X : gset string) (n : Node) :
  n ∈ iter ([], pom) (qn "plugin") →
  collect_group_id id_of (pm_plugin_ids id_of ([], pom)) X n
  = match managed_group_id pom n with
    | Some g => X ∪ {[ g ]}
    | None => X
    end.
Proof.
  intros Hn. unfold collect_group_id, managed_group_id, pm_plugin_ids.
  pose proof (ids_within_inside id_of pom (qn "pluginManagement") _ n Hn) as Hin.
  case_decide as Hid.
  - apply Hin in Hid. rewrite Hid. by destruct (truthy_text _).
  - destruct (insideb _ _ _); [by destruct Hid; apply Hin|done].
Qed.

Lemma collect_pm_group_ids_spec pom :
  collect_pm_group_ids id_of ([], pom) = managed_group_ids pom.
Proof.
  unfold collect_pm_group_ids, managed_group_ids.
  assert (∀ l (X : gset string),
    (∀ n, n ∈ l → n ∈ iter ([], pom) (qn "plugin")) →
    foldl (collect_group_id id_of (pm_plugin_ids id_of ([], pom))) X l
    = X ∪ list_to_set (omap (managed_group_id pom) l)) as Hgen.
  { induction l as [|n l IHl]; intros X Hl; simpl.
    - by rewrite (right_id_L ∅ (∪)).
    - rewrite IHl by (intros; apply Hl; by right).
      rewrite collect_group_id_spec by (apply Hl; left).
      destruct (managed_group_id pom n); simpl; [|done].
      by rewrite (assoc_L (∪)). }
  rewrite Hgen; [|done]. by rewrite (left_id_L ∅ (∪)).
Qed.

End Managed.

Lemma elem_of_managed_group_ids pom g :
  g ∈ managed_group_ids pom ↔
  ∃ n, n ∈ iter ([], pom) (qn "plugin") ∧ managed_group_id pom n = Some g.
Proof.
  unfold managed_group_ids. rewrite elem_of_list_to_set, list_elem_of_omap. done.
Qed.

(** ** Sorting and iterating the set of groupIds *)

Section SetOrder.

Context (set_order : gset string → list string).
Context (set_order_perm : ∀ X, set_order X ≡ₚ elements X).

Lemma elem_of_set_order X g : g ∈ set_order X ↔ g ∈ X.
Proof using set_order_perm. by rewrite set_order_perm, elem_of_elements. Qed.

Lemma elem_of_sorted X g : g ∈ merge_sort String.le (set_order X) ↔ g ∈ X.
Proof using set_order_perm. by rewrite merge_sort_Permutation, elem_of_set_order. Qed.

Lemma sorted_NoDup X : NoDup (merge_sort String.le (set_order X)).
Proof using set_order_perm.
  rewrite merge_sort_Permutation, set_order_perm. apply NoDup_elements.
Qed.

Lemma covering_some X p :
  existsb (λ gid, covers_group_id p gid) (set_order X) = true ↔
  ∃ gid, gid ∈ X ∧ covers_group_id p gid = true.
Proof using set_order_perm.
  rewrite existsb_true. by setoid_rewrite elem_of_set_order.
Qed.

Lemma covering_none X p :
  existsb (λ gid, covers_group_id p gid) (set_order X) = false ↔
  ∀ gid, gid ∈ X → covers_group_id p gid = false.
Proof using set_order_perm.
  rewrite existsb_false. by setoid_rewrite elem_of_set_order.
Qed.

End SetOrder.

(** The sorted list and the stale test do not depend on the order in
    which the set happens to be iterated. *)
Lemma coverage_errors_order order1 order2 X patterns errors :
  (∀ X, order1 X ≡ₚ elements X) → (∀ X, order2 X ≡ₚ elements X) →
  coverage_errors order1 X patterns errors
  = coverage_errors order2 X patterns errors.
Proof.
  intros H1 H2. destruct patterns as [|p ps]; [done|].
  rewrite !(coverage_errors_report _ _ (p :: ps)) by done.
  f_equal. f_equal.
  - f_equal. apply (Sorted_unique String.le).
    + apply (Sorted_merge_sort String.le).
    + apply (Sorted_merge_sort String.le).
    + by rewrite !merge_sort_Permutation, H1, H2.
  - induction (p :: ps) as [|q qs IH]; simpl; [done|]. rewrite IH. f_equal.
    destruct (existsb _ (order1 X)) eqn:E1.
    + apply (covering_some order1 H1) in E1.
      apply (covering_some order2 H2) in E1. by rewrite E1.
    + rewrite (covering_none order1 H1) in E1.
      apply (covering_none order2 H2) in E1. by rewrite E1.
Qed.

Lemma path_id_inj : Inj (=) (=) path_id.
Proof. intros p q H. unfold path_id in H. injection H. apply (inj encode). Qed.

Lemma coverage_errors_not_stray set_order X patterns m :
  m ∈ coverage_errors set_order X patterns [] → ¬ is_stray m.
Proof.
  destruct patterns as [|p ps].
  - rewrite coverage_errors_missing. intros ->%list_elem_of_singleton.
    apply missing_not_stray.
  - rewrite (coverage_errors_report _ _ (p :: ps)) by done. rewrite app_nil_l.
    rewrite elem_of_app, !elem_of_flat_map.
    intros [(g & _ & Hm)|(q & _ & Hm)].
    + destruct (existsb _ _); [by apply elem_of_nil in Hm|].
      apply list_elem_of_singleton in Hm as ->. apply uncovered_not_stray.
    + destruct (existsb _ _); [by apply elem_of_nil in Hm|].
      apply list_elem_of_singleton in Hm as ->. apply stale_not_stray.
Qed.

Lemma elem_of_stray_report section e m :
  m ∈ stray_report section e → ∃ g a v, m = stray_message g a v section.
Proof.
  unfold stray_report. destruct (truthy_text _); [|by intros ?%elem_of_nil].
  intros ->%list_elem_of_singleton. eauto.
Qed.

(** * The claims *)

(** C1. Rule A reports a plugin element exactly when it is not at or below a
    [pluginManagement] element and has a [version] child with non-empty
    text.  Every plugin element of the tree is visited once; the iteration
    for it appends one message, built from its coordinates and the trimmed
    version text, in that case and nothing otherwise, so a managed plugin is
    never reported; the report of [main] starts with these messages and
    holds no other message of Rule A. *)
Theorem rule_A_raises_iff (id_of : path → Z) (set_order : gset string → list string)
    (pom : Element) (dependabot_text : string) :
  Inj (=) (=) id_of →
  let plugins := iter ([], pom) (qn "plugin") in
  (∀ p e, (p, e) ∈ plugins ↔ subelement pom p = Some e ∧ tag e = qn "plugin")
  ∧ NoDup plugins.*1
  ∧ (∀ (n : Node) errors, n ∈ plugins →
       check_plugin id_of (pm_plugin_ids id_of ([], pom)) errors n
       = errors ++
         if insideb pom (qn "pluginManagement") n.1 then []
         else match truthy_text (find n.2 (qn "version")) with
              | Some v =>
                  [stray_message (artifact_coords n.2).1 (artifact_coords n.2).2
                                 (Py.strip v) "pluginManagement"]
              | None => []
              end)
  ∧ ∃ others,
      main id_of set_order pom dependabot_text
      = flat_map (rule_A_report pom) plugins ++ others
      ∧ ∀ m g a v, m ∈ others → m ≠ stray_message g a v "pluginManagement".
Proof.
  intros Hinj plugins. split_and!.
  - intros p e. unfold plugins. rewrite elem_of_iter. simpl. split.
    + intros [Ht (s & -> & Hs)]. done.
    + intros [Hs Ht]. eauto.
  - apply iter_NoDup.
  - intros n errors Hn. by apply check_plugin_report.
  - eexists. split.
    + rewrite main_split, version_errors_report by done.
      rewrite <-(assoc_L (++)). done.
    + intros m g a v [Hm|Hm]%elem_of_app ->.
      * apply elem_of_flat_map in Hm as (n & _ & Hm). unfold rule_B_report in Hm.
        destruct (_ || _); [by apply elem_of_nil in Hm|].
        apply elem_of_stray_report in Hm as (g' & a' & v' & Hm).
        by apply stray_sections_differ in Hm.
      * apply coverage_errors_not_stray in Hm. apply Hm. by eexists _, _, _, _.
Qed.

Lemma rule_A_raises_iff_witness :
  Inj (=) (=) path_id
  ∧ ∀ (n : Node) errors, n ∈ iter ([], sample_pom) (qn "plugin") →
      check_plugin path_id (pm_plugin_ids path_id ([], sample_pom)) errors n
      = errors ++
        if insideb sample_pom (qn "pluginManagement") n.1 then []
        else match truthy_text (find n.2 (qn "version")) with
             | Some v =>
                 [stray_message (artifact_coords n.2).1 (artifact_coords n.2).2
                                (Py.strip v) "pluginManagement"]
             | None => []
             end.
Proof.
  split; [exact path_id_inj|].
  exact (proj1 (proj2 (proj2
    (rule_A_raises_iff path_id elements sample_pom sample_config path_id_inj)))).
Defined.

(** C2. A dependency element at or below a plugin element is never reported
    by Rule B, whatever its version and whether or not it is under
    [dependencyManagement].  The iteration for a dependency element appends
    a message only when the element is in neither identity set (it is at
    or below no [dependencyManagement] and no [plugin] element) and has a
    [version] child with non-empty text; the report of [main] holds no other
    message of Rule B. *)
Theorem rule_B_plugin_local_exempt (id_of : path → Z)
    (set_order : gset string → list string) (pom : Element)
    (dependabot_text : string) :
  Inj (=) (=) id_of →
  let deps := iter ([], pom) (qn "dependency") in
  let dm_ids := dm_dependency_ids id_of ([], pom) in
  let plugin_dep_ids := plugin_dependency_ids id_of ([], pom) in
  (∀ n : Node, n ∈ deps →
     (id_of n.1 ∈ plugin_dep_ids ↔ insideb pom (qn "plugin") n.1 = true)
     ∧ (id_of n.1 ∈ dm_ids ↔ insideb pom (qn "dependencyManagement") n.1 = true))
  ∧ (∀ (n : Node) errors, n ∈ deps → insideb pom (qn "plugin") n.1 = true →
       check_dependency id_of dm_ids plugin_dep_ids errors n = errors)
  ∧ (∀ (n : Node) errors, n ∈ deps →
       check_dependency id_of dm_ids plugin_dep_ids errors n
       = errors ++
         if decide (id_of n.1 ∈ dm_ids ∨ id_of n.1 ∈ plugin_dep_ids) then []
         else match truthy_text (find n.2 (qn "version")) with
              | Some v =>
                  [stray_message (artifact_coords n.2).1 (artifact_coords n.2).2
                                 (Py.strip v) "dependencyManagement"]
              | None => []
              end)
  ∧ ∃ before after,
      main id_of set_order pom dependabot_text
      = before ++ flat_map (rule_B_report pom) deps ++ after
      ∧ ∀ m g a v, m ∈ before ++ after →
          m ≠ stray_message g a v "dependencyManagement".
Proof.
  intros Hinj deps dm_ids plugin_dep_ids.
  subst deps dm_ids plugin_dep_ids. split_and!.
  - intros n Hn. split; by apply ids_within_inside.
  - intros n errors Hn Hin. rewrite check_dependency_report by done.
    unfold rule_B_report. rewrite Hin, orb_true_r. apply (right_id_L [] (++)).
  - intros n errors Hn. unfold check_dependency. case_decide.
    + by rewrite (right_id_L [] (++)).
    + apply stray_version_report.
  - eexists _, _. split.
    + rewrite main_split, version_errors_report by done.
      rewrite <-(assoc_L (++)). done.
    + intros m g a v [Hm|Hm]%elem_of_app ->.
      * apply elem_of_flat_map in Hm as (n & _ & Hm). unfold rule_A_report in Hm.
        destruct (insideb _ _ _); [by apply elem_of_nil in Hm|].
        apply elem_of_stray_report in Hm as (g' & a' & v' & Hm).
        symmetry in Hm. by apply stray_sections_differ in Hm.
      * apply coverage_errors_not_stray in Hm. apply Hm. by eexists _, _, _, _.
Qed.

Lemma rule_B_plugin_local_exempt_witness :
  Inj (=) (=) path_id
  ∧ ∀ (n : Node) errors, n ∈ iter ([], sample_pom) (qn "dependency") →
      insideb sample_pom (qn "plugin") n.1 = true →
      check_dependency path_id (dm_dependency_ids path_id ([], sample_pom))
        (plugin_dependency_ids path_id ([], sample_pom)) errors n = errors.
Proof.
  split; [exact path_id_inj|].
  exact (proj1 (proj2
    (rule_B_plugin_local_exempt path_id elements sample_pom sample_config
       path_id_inj))).
Defined.

(** C7. With a non-empty pattern list, a managed groupId that no pattern
    covers has exactly one Rule-C message in the report, and a groupId that
    is covered or not managed has none; a pattern that covers no managed
    groupId has one Rule-D message for each of its entries in the list (so
    exactly one when it is listed once), and a pattern that covers some
    managed groupId has none.  The iteration for an entry of the list
    appends the one message, or nothing when the pattern covers a managed
    groupId. *)
Theorem coverage_exact_counts (id_of : path → Z)
    (set_order : gset string → list string) (pom : Element)
    (dependabot_text : string) :
  Inj (=) (=) id_of →
  (∀ X, set_order X ≡ₚ elements X) →
  let patterns := extract_maven_plugins_patterns dependabot_text in
  let errors := main id_of set_order pom dependabot_text in
  patterns ≠ [] →
  (∀ gid, gid ∈ managed_group_ids pom →
     (∀ p, p ∈ patterns → covers_group_id p gid = false) →
     occurrences (uncovered_message gid) errors = 1)
  ∧ (∀ gid p, p ∈ patterns → covers_group_id p gid = true →
       occurrences (uncovered_message gid) errors = 0)
  ∧ (∀ gid, gid ∉ managed_group_ids pom →
       occurrences (uncovered_message gid) errors = 0)
  ∧ (∀ p, (∀ gid, gid ∈ managed_group_ids pom → covers_group_id p gid = false) →
       occurrences (stale_message p) errors = occurrences p patterns)
  ∧ (∀ p gid, gid ∈ managed_group_ids pom → covers_group_id p gid = true →
       occurrences (stale_message p) errors = 0)
  ∧ (∀ p found,
       check_stale set_order (collect_pm_group_ids id_of ([], pom)) found p
       = if decide (∃ gid, gid ∈ managed_group_ids pom
                           ∧ covers_group_id p gid = true)
         then found else found ++ [stale_message p]).
Proof.
  intros Hinj Hperm patterns errors Hne. subst errors.
  rewrite main_split, collect_pm_group_ids_spec by done.
  fold patterns. rewrite (coverage_errors_report _ _ patterns) by done.
  rewrite app_nil_l.
  set (X := managed_group_ids pom).
  set (covered := λ gid, existsb (λ p, covers_group_id p gid) patterns).
  set (live := λ p, existsb (λ gid, covers_group_id p gid) (set_order X)).
  assert (∀ gid,
    occurrences (uncovered_message gid)
      (version_errors id_of ([], pom)
       ++ flat_map (λ gid, if covered gid then [] else [uncovered_message gid])
            (merge_sort String.le (set_order X))
       ++ flat_map (λ p, if live p then [] else [stale_message p]) patterns)
    = if covered gid then 0
      else occurrences gid (merge_sort String.le (set_order X))) as HC.
  { intros gid. rewrite !occurrences_app.
    rewrite occurrences_version_errors by apply uncovered_not_stray.
    rewrite (occurrences_reported uncovered_message covered)
      by apply uncovered_message_inj.
    rewrite (occurrences_not_elem _ (flat_map _ patterns)).
    - simpl. lia.
    - apply not_elem_of_reported. intros p Hp. by apply (uncovered_not_stale gid p). }
  assert (∀ p,
    occurrences (stale_message p)
      (version_errors id_of ([], pom)
       ++ flat_map (λ gid, if covered gid then [] else [uncovered_message gid])
            (merge_sort String.le (set_order X))
       ++ flat_map (λ p, if live p then [] else [stale_message p]) patterns)
    = if live p then 0 else occurrences p patterns) as HD.
  { intros p. rewrite !occurrences_app.
    rewrite occurrences_version_errors by apply stale_not_stray.
    rewrite (occurrences_reported stale_message live) by apply stale_message_inj.
    rewrite (occurrences_not_elem _ (flat_map _ (merge_sort _ _))).
    - done.
    - apply not_elem_of_reported. intros gid. apply uncovered_not_stale. }
  split_and!.
  - intros gid Hgid Hnone. rewrite HC.
    assert (covered gid = false) as -> by by apply existsb_false.
    apply occurrences_NoDup; [by apply sorted_NoDup|by apply elem_of_sorted].
  - intros gid p Hp Hcov. rewrite HC.
    assert (covered gid = true) as -> by (apply existsb_true; eauto). done.
  - intros gid Hgid. rewrite HC. destruct (covered gid); [done|].
    apply occurrences_not_elem. by rewrite elem_of_sorted.
  - intros p Hnone. rewrite HD.
    assert (live p = false) as -> by by apply (covering_none set_order Hperm). done.
  - intros p gid Hgid Hcov. rewrite HD.
    assert (live p = true) as -> by (apply (covering_some set_order Hperm); eauto).
    done.
  - intros p found. unfold check_stale. fold X (live p).
    destruct (live p) eqn:Hlive.
    + apply (covering_some set_order Hperm) in Hlive. by rewrite decide_True.
    + pose proof (proj1 (covering_none set_order Hperm X p) Hlive) as Hnone.
      rewrite decide_False; [done|]. intros (gid & Hgid & Hcov).
      by rewrite Hnone in Hcov.
Qed.

Lemma coverage_exact_counts_witness :
  Inj (=) (=) path_id
  ∧ (∀ X : gset string, elements X ≡ₚ elements X)
  ∧ extract_maven_plugins_patterns sample_config ≠ []
  ∧ occurrences (uncovered_message "com.example.tools")
      (main path_id elements sample_pom sample_config) = 1.
Proof.
  assert (extract_maven_plugins_patterns sample_config = ["other.group:*"]) as Hp
    by (vm_compute; reflexivity).
  assert (extract_maven_plugins_patterns sample_config ≠ []) as Hne
    by (rewrite Hp; discriminate).
  split_and!; [exact path_id_inj|reflexivity|exact Hne|].
  apply (proj1 (coverage_exact_counts path_id elements sample_pom sample_config
                  path_id_inj (λ X, reflexivity (elements X)) Hne)).
  - apply elem_of_managed_group_ids.
    exists ([0; 0; 0; 0], sample_plugin "com.example.tools" "checker" (Some "1.0")).
    split; [|vm_compute; reflexivity].
    apply elem_of_iter. split; [reflexivity|]. exists [0; 0; 0; 0]. split; reflexivity.
  - intros p. rewrite Hp. intros ->%list_elem_of_singleton. vm_compute. reflexivity.
Defined.

(** C8. The report is a function of the manifest and the configuration text
    alone: it is the same for every assignment of distinct ids to the
    elements and for every order in which the set of groupIds is iterated,
    message for message and in the same order. *)
Theorem check_deterministic (id1 id2 : path → Z)
    (order1 order2 : gset string → list string) (pom : Element)
    (dependabot_text : string) :
  Inj (=) (=) id1 → Inj (=) (=) id2 →
  (∀ X, order1 X ≡ₚ elements X) → (∀ X, order2 X ≡ₚ elements X) →
  main id1 order1 pom dependabot_text = main id2 order2 pom dependabot_text.
Proof.
  intros Hid1 Hid2 Ho1 Ho2.
  rewrite !main_split, !version_errors_report, !collect_pm_group_ids_spec by done.
  f_equal. by apply coverage_errors_order.
Qed.

Lemma check_deterministic_witness :
  Inj (=) (=) path_id
  ∧ Inj (=) (=) (λ p, - path_id p)%Z
  ∧ (∀ X : gset string, elements X ≡ₚ elements X)
  ∧ (∀ X : gset string, reverse (elements X) ≡ₚ elements X)
  ∧ main path_id elements sample_pom sample_config
    = main (λ p, - path_id p)%Z (λ X, reverse (elements X))
        sample_pom sample_config.
Proof.
  assert (Inj (=) (=) (λ p, - path_id p)%Z) as Hneg.
  { intros p q H. apply path_id_inj. lia. }
  split_and!; [exact path_id_inj|exact Hneg|reflexivity|
               intros X; apply reverse_Permutation|].
  apply (check_deterministic path_id (λ p, - path_id p)%Z elements
           (λ X, reverse (elements X)) sample_pom sample_config
           path_id_inj Hneg (λ X, reflexivity (elements X))
           (λ X, reverse_Permutation (elements X))).
Defined.

Lemma truthy_text_None x :
  truthy_text x = None ↔
  x = None ∨ ∃ c, x = Some c ∧ (text c = None ∨ text c = Some EmptyString).
Proof.
  unfold truthy_text. destruct x as [c|]; [|by split; auto].
  destruct (text c) as [[|a t]|] eqn:Hc; simpl; split; intros H.
  - right. eauto.
  - done.
  - done.
  - destruct H as [?|(c' & ? & [?|?])]; simplify_eq.
  - right. eauto.
  - done.
Qed.

(** C10. A managed plugin whose [groupId] child is absent, has no text or
    has empty text adds nothing to the set of managed groupIds (the
    "unknown" of the coordinates is not used there).  The set holds exactly
    the trimmed texts of the managed plugins that have one, so a Rule-C
    message always names the groupId text of some managed plugin, and a
    listed pattern that covers none of these texts is reported by Rule D
    whatever other plugins are managed. *)
Theorem groupless_plugins_invisible (id_of : path → Z)
    (set_order : gset string → list string) (pom : Element)
    (dependabot_text : string) :
  Inj (=) (=) id_of →
  (∀ X, set_order X ≡ₚ elements X) →
  let pm_ids := pm_plugin_ids id_of ([], pom) in
  let errors := main id_of set_order pom dependabot_text in
  let declares (g : string) :=
    ∃ p e t, subelement pom p = Some e ∧ tag e = qn "plugin"
             ∧ insideb pom (qn "pluginManagement") p = true
             ∧ truthy_text (find e (qn "groupId")) = Some t
             ∧ g = Py.strip t in
  (∀ (n : Node) (X : gset string),
     find n.2 (qn "groupId") = None
     ∨ (∃ c, find n.2 (qn "groupId") = Some c
             ∧ (text c = None ∨ text c = Some EmptyString)) →
     collect_group_id id_of pm_ids X n = X)
  ∧ (∀ g, g ∈ collect_pm_group_ids id_of ([], pom) ↔ declares g)
  ∧ (∀ g, uncovered_message g ∈ errors → declares g)
  ∧ (∀ pattern, pattern ∈ extract_maven_plugins_patterns dependabot_text →
       (∀ g, declares g → covers_group_id pattern g = false) →
       stale_message pattern ∈ errors).
Proof.
  intros Hinj Hperm pm_ids errors declares. subst pm_ids errors.
  assert (∀ g, g ∈ managed_group_ids pom ↔ declares g) as Hdecl.
  { intros g. rewrite elem_of_managed_group_ids. unfold declares. split.
    - intros ([p e] & [Ht (s & Hp & Hs)]%elem_of_iter & Hg).
      simpl in *. subst s. unfold managed_group_id in Hg. simpl in Hg.
      destruct (insideb _ _ _) eqn:Hin; [|done].
      destruct (truthy_text _) as [t|] eqn:Htext; simplify_eq/=.
      by exists p, e, t.
    - intros (p & e & t & Hs & Ht & Hin & Htext & ->). exists (p, e). split.
      + apply elem_of_iter. eauto.
      + unfold managed_group_id. simpl. by rewrite Hin, Htext. }
  split_and!.
  - intros n X Hnone%truthy_text_None. unfold collect_group_id.
    rewrite Hnone. by case_decide.
  - intros g. by rewrite collect_pm_group_ids_spec.
  - intros g. rewrite main_split, collect_pm_group_ids_spec by done.
    intros [Hv|Hc]%elem_of_app.
    + pose proof (version_errors_stray id_of ([], pom)) as Hs.
      rewrite Forall_forall in Hs. by apply Hs, uncovered_not_stray in Hv.
    + destruct (extract_maven_plugins_patterns dependabot_text) as [|q qs] eqn:Hq.
      * apply list_elem_of_singleton in Hc. by apply uncovered_not_missing in Hc.
      * rewrite (coverage_errors_report _ _ (q :: qs)), app_nil_l in Hc by done.
        apply elem_of_app in Hc as [Hc|Hc].
        -- apply elem_of_flat_map in Hc as (g' & Hg' & Hc).
           destruct (existsb _ _); [by apply elem_of_nil in Hc|].
           apply list_elem_of_singleton, uncovered_message_inj in Hc as ->.
           by apply Hdecl, (elem_of_sorted set_order Hperm).
        -- apply elem_of_flat_map in Hc as (p' & _ & Hc).
           destruct (existsb _ _); [by apply elem_of_nil in Hc|].
           apply list_elem_of_singleton in Hc. by apply uncovered_not_stale in Hc.
  - intros pattern Hin Hnone. rewrite main_split, collect_pm_group_ids_spec by done.
    apply elem_of_app. right.
    rewrite coverage_errors_report by (intros E; rewrite E in Hin; by apply elem_of_nil in Hin).
    rewrite app_nil_l. apply elem_of_app. right.
    apply elem_of_flat_map. exists pattern. split; [done|].
    assert (existsb (λ gid, covers_group_id pattern gid)
              (set_order (managed_group_ids pom)) = false) as ->.
    { apply (covering_none set_order Hperm). intros g Hg. by apply Hnone, Hdecl. }
    by apply list_elem_of_singleton.
Qed.

Lemma groupless_plugins_invisible_witness :
  Inj (=) (=) path_id
  ∧ (∀ X : gset string, elements X ≡ₚ elements X)
  ∧ stale_message "unknown:*"
    ∈ main path_id elements groupless_pom unknown_config.
Proof.
  split_and!; [exact path_id_inj|reflexivity|].
  apply (proj2 (proj2 (proj2
    (groupless_plugins_invisible path_id elements groupless_pom unknown_config
       path_id_inj (λ X, reflexivity (elements X)))))).
  - vm_compute. left.
  - intros g (p & e & t & Hs & Ht & Hin & Htext & _).
    assert ((p, e) ∈ iter ([], groupless_pom) (qn "plugin")) as Hn
      by (apply elem_of_iter; eauto).
    vm_compute in Hn. apply list_elem_of_singleton in Hn. simplify_eq.
Defined.

(** The fallback of the coordinates would be covered by the pattern that
    Rule D reports for [groupless_pom]. *)
Lemma unknown_fallback_not_collected :
  artifact_coords (Elem (qn "plugin") None [leaf "artifactId" "checker"])
  = ("unknown", "checker")
  ∧ covers_group_id "unknown:*" "unknown" = true
  ∧ main path_id elements groupless_pom unknown_config
    = [stale_message "unknown:*"].
Proof. split_and!; vm_compute; reflexivity. Qed.

(** ** The missing block *)

(** C4, as stated, fails: the block is located and holds no item, and the
    report is the missing-block message. *)
Lemma located_empty_block_reported_missing :
  locate_patterns_line (Py.splitlines empty_block_config) = Some 6
  ∧ extract_maven_plugins_patterns empty_block_config = []
  ∧ occurrences missing_block_message
      (main path_id elements groupless_pom empty_block_config) = 1.
Proof. split_and!; vm_compute; reflexivity. Qed.

(** C4, amended. When the extracted pattern list is empty, which is the
    case when a marker of the chain is not found and also when the block is
    found with no item in it, the report is the version messages followed
    by the missing-block message alone: that message occurs once and there
    is no Rule-C or Rule-D message.  When the list is not empty the
    missing-block message is not reported. *)
Theorem missing_block_handling (id_of : path → Z)
    (set_order : gset string → list string) (pom : Element)
    (dependabot_text : string) :
  let patterns := extract_maven_plugins_patterns dependabot_text in
  let errors := main id_of set_order pom dependabot_text in
  (locate_patterns_line (Py.splitlines dependabot_text) = None → patterns = [])
  ∧ (patterns = [] →
       errors = version_errors id_of ([], pom) ++ [missing_block_message]
       ∧ occurrences missing_block_message errors = 1
       ∧ ∀ x, (uncovered_message x ∉ errors) ∧ (stale_message x ∉ errors))
  ∧ (patterns ≠ [] → missing_block_message ∉ errors).
Proof.
  intros patterns errors. subst patterns errors. split_and!.
  - intros Hnone. unfold extract_maven_plugins_patterns, extract_from_lines.
    by rewrite Hnone.
  - intros Hempty. rewrite main_split, Hempty, coverage_errors_missing.
    pose proof (version_errors_stray id_of ([], pom)) as Hs.
    rewrite Forall_forall in Hs. split_and!.
    + done.
    + rewrite occurrences_app, occurrences_version_errors by apply missing_not_stray.
      reflexivity.
    + intros x. split.
      * intros [H%Hs|H%list_elem_of_singleton]%elem_of_app;
          [by apply uncovered_not_stray in H|by apply uncovered_not_missing in H].
      * intros [H%Hs|H%list_elem_of_singleton]%elem_of_app;
          [by apply stale_not_stray in H|by apply stale_not_missing in H].
  - intros Hne. rewrite main_split, coverage_errors_report, app_nil_l by done.
    rewrite !elem_of_app. intros [Hv|[Hc|Hd]].
    + pose proof (version_errors_stray id_of ([], pom)) as Hs.
      rewrite Forall_forall in Hs. by apply Hs, missing_not_stray in Hv.
    + revert Hc. apply not_elem_of_reported. intros g. apply uncovered_not_missing.
    + revert Hd. apply not_elem_of_reported. intros p. apply stale_not_missing.
Qed.

Lemma missing_block_handling_witness :
  extract_maven_plugins_patterns empty_block_config = []
  ∧ main path_id elements sample_pom empty_block_config
    = version_errors path_id ([], sample_pom) ++ [missing_block_message].
Proof.
  assert (extract_maven_plugins_patterns empty_block_config = []) as He
    by (vm_compute; reflexivity).
  split; [exact He|].
  exact (proj1 (proj1 (proj2
    (missing_block_handling path_id elements sample_pom empty_block_config)) He)).
Defined.

(** ** The coordinate extractor *)

Lemma lstrip_spaces s :
  Py.all_chars Py.isspace (Py.lstrip s) = Py.all_chars Py.isspace s.
Proof.
  induction s as [|c s IH]; simpl; [done|].
  by destruct (Py.isspace c) eqn:Hc; simpl; rewrite ?Hc.
Qed.

Lemma rstrip_empty_iff s : Py.rstrip s = EmptyString ↔ Py.all_chars Py.isspace s = true.
Proof.
  induction s as [|c s IH]; simpl; [done|].
  destruct (Py.rstrip s) eqn:Hr.
  - destruct (Py.isspace c); simpl; [|done]. by rewrite <-IH.
  - split; [done|]. intros [_ Hs]%andb_true_iff. by apply IH in Hs.
Qed.

Lemma strip_empty_iff s : Py.strip s = EmptyString ↔ Py.all_chars Py.isspace s = true.
Proof. unfold Py.strip. by rewrite rstrip_empty_iff, lstrip_spaces. Qed.

Lemma find_Some e t c :
  find e t = Some c ↔
  ∃ i, children e !! i = Some c ∧ tag c = t
       ∧ ∀ j d, children e !! j = Some d → j < i → tag d ≠ t.
Proof.
  unfold find. rewrite fmap_Some. split.
  - intros ([i c'] & H%list_find_Some & ->). exists i. exact H.
  - intros (i & H). exists (i, c). split; [|done]. by apply list_find_Some.
Qed.

Lemma find_None e t : find e t = None ↔ ∀ c, c ∈ children e → tag c ≠ t.
Proof. unfold find. by rewrite fmap_None, list_find_None, Forall_forall. Qed.

(** C5, as stated, fails: a groupId made of white space only is returned
    as the empty string, not as the fallback. *)
Lemma blank_group_id_not_unknown :
  find blank_group_plugin (qn "groupId") = Some (leaf "groupId" "   ")
  ∧ Py.all_chars Py.isspace "   " = true
  ∧ (artifact_coords blank_group_plugin).1 = EmptyString
  ∧ (artifact_coords blank_group_plugin).1 ≠ "unknown".
Proof. split_and!; [vm_compute; reflexivity..|vm_compute; discriminate]. Qed.

(** C5, amended. For each of [groupId] and [artifactId] the extractor looks
    at the first child with that name.  It returns the fallback "unknown"
    when there is no such child or when the text of the child is absent or
    the empty string, and the trimmed text in every other case; the trimmed
    text is the empty string exactly when the text is white space only.
    The function is total. *)
Theorem artifact_coords_fallback (element : Element) :
  let field (name : string) : string :=
    match find element (qn name) with
    | Some c =>
        match text c with
        | Some t => if decide (t = EmptyString) then "unknown" else Py.strip t
        | None => "unknown"
        end
    | None => "unknown"
    end in
  artifact_coords element = (field "groupId", field "artifactId")
  ∧ (∀ name c,
       find element name = Some c ↔
       ∃ i, children element !! i = Some c ∧ tag c = name
            ∧ ∀ j d, children element !! j = Some d → j < i → tag d ≠ name)
  ∧ (∀ name, find element name = None ↔
             ∀ c, c ∈ children element → tag c ≠ name)
  ∧ (∀ t, Py.strip t = EmptyString ↔ Py.all_chars Py.isspace t = true).
Proof.
  intros field. split_and!.
  - unfold artifact_coords, field, truthy_text.
    f_equal.
    + destruct (find element (qn "groupId")) as [c|]; [|done].
      by destruct (text c) as [[|a t]|].
    + destruct (find element (qn "artifactId")) as [c|]; [|done].
      by destruct (text c) as [[|a t]|].
  - intros name c. apply find_Some.
  - intros name. apply find_None.
  - apply strip_empty_iff.
Qed.

(** ** The coverage matcher *)

Lemma string_app_nil_l s : EmptyString +:+ s = s.
Proof. done. Qed.

Lemma string_app_cons c s1 s2 : String c s1 +:+ s2 = String c (s1 +:+ s2).
Proof. done. Qed.

Lemma star_matches ts s :
  (fix star (s : string) : bool :=
     Fnmatch.matches ts s
     || match s with
        | String _ s' => star s'
        | _ => false
        end) s = true ↔
  ∃ u v, s = u +:+ v ∧ Fnmatch.matches ts v = true.
Proof.
  induction s as [|c s IH].
  - rewrite orb_false_r. split.
    + intros H. by exists EmptyString, EmptyString.
    + intros ([|??] & v & Hs & Hv).
      * by rewrite string_app_nil_l in Hs; subst v.
      * by rewrite string_app_cons in Hs.
  - rewrite orb_true_iff, IH. split.
    + intros [H|(u & v & -> & Hv)].
      * by exists EmptyString, (String c s).
      * by exists (String c u), v.
    + intros ([|d u] & v & Hs & Hv).
      * left. by rewrite string_app_nil_l in Hs; subst v.
      * right. rewrite string_app_cons in Hs. injection Hs as -> ->. eauto.
Qed.

Lemma matches_Matches ts s : Fnmatch.matches ts s = true ↔ Fnmatch.Matches ts s.
Proof.
  split.
  - revert s. induction ts as [|t ts IH]; intros s.
    + destruct s; [constructor|done].
    + destruct t as [| |c|negated items|]; simpl.
      * intros (u & v & -> & Hv)%star_matches. constructor. by apply IH.
      * destruct s as [|d s]; [done|]. intros H. constructor. by apply IH.
      * destruct s as [|d s]; [done|].
        intros [->%bool_decide_eq_true H]%andb_true_iff. constructor. by apply IH.
      * destruct s as [|d s]; [done|].
        intros [Hd H]%andb_true_iff. constructor; [done|]. by apply IH.
      * done.
  - induction 1 as [|ts u s _ IH|ts d s _ IH|ts c s _ IH|ts negated items d s Hd _ IH];
      simpl.
    + done.
    + apply star_matches. eauto.
    + done.
    + by rewrite bool_decide_eq_true_2.
    + by rewrite Hd.
Qed.

(** ** The regular expression against the meaning of the tokens *)

Lemma app_length_string (a b : string) :
  String.length (a +:+ b) = String.length a + String.length b.
Proof. induction a as [|x a IH]; [done|]. rewrite string_app_cons. simpl. by rewrite IH. Qed.

Lemma match_any_then_spec (f : string → bool) s :
  Fnmatch.match_any_then f s = true ↔ ∃ u v, s = u +:+ v ∧ f v = true.
Proof.
  induction s as [|c s IH]; simpl.
  - rewrite orb_false_r. split.
    + intros H. by exists EmptyString, EmptyString.
    + intros ([|??] & v & Hs & Hv).
      * by rewrite string_app_nil_l in Hs; subst v.
      * by rewrite string_app_cons in Hs.
  - rewrite orb_true_iff, IH. split.
    + intros [H|(u & v & -> & Hv)].
      * by exists EmptyString, (String c s).
      * by exists (String c u), v.
    + intros ([|d u] & v & Hs & Hv).
      * left. by rewrite string_app_nil_l in Hs; subst v.
      * right. rewrite string_app_cons in Hs. injection Hs as -> ->. eauto.
Qed.

(** A run of one-character expressions takes as many characters as it has
    expressions. *)
Lemma match_fixed_length fixed s rest :
  Fnmatch.match_fixed fixed s = Some rest →
  ∃ w, s = w +:+ rest ∧ String.length w = length fixed.
Proof.
  revert s. induction fixed as [|t fixed IH]; intros s; simpl.
  - intros [= ->]. by exists EmptyString.
  - destruct s as [|c s]; [done|]. destruct (Fnmatch.accepts t c); [|done].
    intros (w & -> & Hw)%IH. exists (String c w). by rewrite string_app_cons; simpl; rewrite Hw.
Qed.

(** Matching a run and then the rest is what the tokens mean. *)
Lemma matches_fixed_app fixed ts s :
  star_free fixed →
  Fnmatch.matches (fixed ++ ts) s
  = match Fnmatch.match_fixed fixed s with
    | Some rest => Fnmatch.matches ts rest
    | None => false
    end.
Proof.
  intros Hf. revert s. induction Hf as [|t fixed Ht _ IH]; intros s; [done|].
  rewrite <-app_comm_cons.
  destruct t as [| |c|negated items|]; [done|..]; destruct s as [|d s]; simpl; try done.
  - destruct (bool_decide (d = c)); [apply IH|done].
  - destruct (Fnmatch.in_class negated items d); [apply IH|done].
Qed.

(** Of two ends of the same text, the shorter is an end of the longer. *)
Lemma common_suffix (a b r r' : string) :
  a +:+ r = b +:+ r' → String.length r' ≤ String.length r →
  ∃ x, r = x +:+ r'.
Proof.
  revert b. induction a as [|c a IH]; intros b.
  - rewrite string_app_nil_l. intros ->. by exists b.
  - destruct b as [|d b].
    + rewrite string_app_nil_l. intros <-. rewrite string_app_cons. simpl.
      rewrite app_length_string. lia.
    + rewrite !string_app_cons. intros [= _ H] Hlen. by apply (IH b).
Qed.

Lemma match_lazy_Some fixed s rest :
  Fnmatch.match_lazy fixed s = Some rest →
  ∃ u v, s = u +:+ v ∧ Fnmatch.match_fixed fixed v = Some rest.
Proof.
  induction s as [|c s IH]; simpl.
  - destruct (Fnmatch.match_fixed fixed EmptyString) as [r|] eqn:Hm; [|done].
    intros [= ->]. by exists EmptyString, EmptyString.
  - destruct (Fnmatch.match_fixed fixed (String c s)) as [r|] eqn:Hm.
    + intros [= ->]. by exists EmptyString, (String c s).
    + intros (u & v & -> & Hv)%IH. by exists (String c u), v.
Qed.

Lemma match_lazy_None fixed s u v :
  Fnmatch.match_lazy fixed s = None → s = u +:+ v →
  Fnmatch.match_fixed fixed v = None.
Proof.
  revert u. induction s as [|c s IH]; intros u; simpl.
  - destruct (Fnmatch.match_fixed fixed EmptyString) as [r|] eqn:Hm; [done|].
    intros _. destruct u as [|??]; [|done]. rewrite string_app_nil_l. by intros <-.
  - destruct (Fnmatch.match_fixed fixed (String c s)) as [r|] eqn:Hm; [done|].
    intros Hl. destruct u as [|d u].
    + rewrite string_app_nil_l. by intros <-.
    + rewrite string_app_cons. intros [= _ ->]. by eapply IH.
Qed.

(** The place that the atomic group keeps is the leftmost one, so what any
    other place leaves is an end of what it leaves. *)
Lemma match_lazy_leftmost fixed s rest u v rest' :
  Fnmatch.match_lazy fixed s = Some rest → s = u +:+ v →
  Fnmatch.match_fixed fixed v = Some rest' →
  ∃ x, rest = x +:+ rest'.
Proof.
  revert u. induction s as [|c s IH]; intros u; simpl.
  - destruct (Fnmatch.match_fixed fixed EmptyString) as [r|] eqn:Hm; [|done].
    intros [= ->]. destruct u as [|??]; [|done]. rewrite string_app_nil_l.
    intros <-. rewrite Hm. intros [= ->]. by exists EmptyString.
  - destruct (Fnmatch.match_fixed fixed (String c s)) as [r|] eqn:Hm.
    + intros [= ->] Hs Hv.
      apply match_fixed_length in Hm as (w & Hw & Hlw).
      apply match_fixed_length in Hv as (w' & -> & Hlw').
      apply (common_suffix w (u +:+ w')).
      * by rewrite <-Hw, Hs, string_app_assoc.
      * apply (f_equal String.length) in Hw, Hs.
        rewrite Hw in Hs. rewrite !app_length_string in Hs. lia.
    + intros Hl. destruct u as [|d u].
      * rewrite string_app_nil_l. intros <-. by rewrite Hm.
      * rewrite string_app_cons. intros [= _ ->]. by eapply IH.
Qed.

Lemma matches_star_app ts x s :
  Fnmatch.matches (Fnmatch.Star :: ts) s = true →
  Fnmatch.matches (Fnmatch.Star :: ts) (x +:+ s) = true.
Proof.
  simpl. rewrite !star_matches. intros (u & v & -> & Hv).
  exists (x +:+ u), v. by rewrite string_app_assoc.
Qed.

Lemma matches_star_any_then ts s :
  Fnmatch.matches (Fnmatch.Star :: ts) s
  = Fnmatch.match_any_then (Fnmatch.matches ts) s.
Proof. induction s as [|c s IH]; simpl in *; [done|]. by rewrite IH. Qed.

Lemma match_any_then_ext f g s :
  (∀ x, f x = g x) → Fnmatch.match_any_then f s = Fnmatch.match_any_then g s.
Proof. intros H. induction s as [|c s IH]; simpl; by rewrite H, ?IH. Qed.

Lemma bool_eq_iff (a b : bool) : (a = true ↔ b = true) → a = b.
Proof. destruct a, b; intuition. Qed.

(** The regular expression built by the second loop accepts a text exactly
    when the tokens match it: keeping the leftmost place of each run between
    two stars loses nothing, because the star after it takes up the
    difference. *)
Lemma match_parts_assemble_from inp : ∀ fixed s,
  star_free fixed →
  Fnmatch.match_parts (Fnmatch.assemble_from fixed false inp) s
  = Fnmatch.matches (fixed ++ inp) s
  ∧ Fnmatch.match_parts (Fnmatch.assemble_from fixed true inp) s
    = Fnmatch.matches (Fnmatch.Star :: fixed ++ inp) s.
Proof.
  induction inp as [|t inp IH]; intros fixed s Hf.
  - rewrite app_nil_r. split.
    + cbn [Fnmatch.assemble_from Fnmatch.match_parts].
      rewrite <-(app_nil_r fixed) at 2. by rewrite matches_fixed_app.
    + cbn [Fnmatch.assemble_from Fnmatch.match_parts].
      rewrite matches_star_any_then. apply match_any_then_ext. intros x.
      rewrite <-(app_nil_r fixed) at 2. by rewrite matches_fixed_app.
  - assert (t = Fnmatch.Star ∨ t ≠ Fnmatch.Star) as [->|Ht]
      by (destruct t; auto).
    + split.
      * cbn [Fnmatch.assemble_from Fnmatch.match_parts].
        rewrite matches_fixed_app by done.
        destruct (Fnmatch.match_fixed fixed s) as [rest|]; [|done].
        by destruct (IH [] rest) as [_ ->]; [constructor|].
      * cbn [Fnmatch.assemble_from Fnmatch.match_parts].
        apply bool_eq_iff.
        change (Fnmatch.matches (Fnmatch.Star :: fixed ++ Fnmatch.Star :: inp) s)
          with ((fix star (s : string) : bool :=
                   Fnmatch.matches (fixed ++ Fnmatch.Star :: inp) s
                   || match s with
                      | String _ s' => star s'
                      | _ => false
                      end) s).
        rewrite star_matches.
        destruct (Fnmatch.match_lazy fixed s) as [rest|] eqn:Hl.
        -- destruct (IH [] rest) as [_ ->]; [constructor|]. rewrite app_nil_l. split.
           ++ intros Hr. apply match_lazy_Some in Hl as (u & v & -> & Hv).
              exists u, v. split; [done|]. by rewrite matches_fixed_app, Hv.
           ++ intros (u & v & Hs & Hv). rewrite matches_fixed_app in Hv by done.
              destruct (Fnmatch.match_fixed fixed v) as [rest'|] eqn:Hm; [|done].
              destruct (match_lazy_leftmost _ _ _ _ _ _ Hl Hs Hm) as [x ->].
              by apply matches_star_app.
        -- split; [done|]. intros (u & v & Hs & Hv).
           rewrite matches_fixed_app in Hv by done.
           by rewrite (match_lazy_None _ _ _ _ Hl Hs) in Hv.
    + assert (star_free (fixed ++ [t])) as Hf'.
      { apply Forall_app. split; [done|]. by constructor. }
      destruct (IH (fixed ++ [t]) s Hf') as [H1 H2].
      rewrite <-!app_assoc in H1, H2. change ([t] ++ inp) with (t :: inp) in H1, H2.
      split; [rewrite <-H1|rewrite <-H2]; by destruct t.
Qed.

Lemma fnmatch_matches name pat :
  Fnmatch.fnmatch name pat = Fnmatch.matches (Fnmatch.translate pat) name.
Proof.
  unfold Fnmatch.fnmatch, Fnmatch.fnmatchcase, Fnmatch.assemble.
  by destruct (match_parts_assemble_from (Fnmatch.translate pat) [] name
                 ltac:(constructor)) as [-> _].
Qed.


(** ** The library's code never raises *)

(** *** No [STAR] follows another *)





(** *** The chunks that are compared are not empty *)

Lemma add_head_cons c chunk chunks :
  Fnmatch.add_head c (chunk :: chunks) = String c chunk :: chunks.
Proof. done. Qed.














(** *** The ranges of a set are not empty *)





















(** An empty range in front of [!]: once it is removed the class is the
    negated one, so [[b-a!x]] accepts every character but [x]. *)
Lemma negation_after_empty_range :
  Fnmatch.translate "[b-a!x]*"
  = [Fnmatch.Class true [Fnmatch.One "x"%char]; Fnmatch.Star]
  ∧ covers_group_id "[b-a!x]*" "y" = true
  ∧ covers_group_id "[b-a!x]*" "x" = false
  ∧ Fnmatch.translate "[b-a!]" = [Fnmatch.Any]
  ∧ Fnmatch.translate "[b-a]" = [Fnmatch.Never].
Proof. by vm_compute. Qed.


Lemma all_chars_app f s1 s2 :
  Py.all_chars f (s1 +:+ s2) = Py.all_chars f s1 && Py.all_chars f s2.
Proof.
  induction s1 as [|c s1 IH]; [done|].
  change (String c s1 +:+ s2) with (String c (s1 +:+ s2)). simpl.
  by rewrite IH, andb_assoc.
Qed.

Lemma translate_literal p :
  Py.all_chars (λ c, negb (is_wild c)) p = true →
  Fnmatch.translate p = Fnmatch.Lit <$> chars p.
Proof.
  unfold Fnmatch.translate. induction p as [|c p IH]; simpl; [done|].
  intros [Hc Hp]%andb_true_iff. unfold is_wild in Hc.
  apply negb_true_iff in Hc. apply orb_false_iff in Hc as [Hc H3].
  apply orb_false_iff in Hc as [H1 H2]. rewrite H1, H2, H3. f_equal. by apply IH.
Qed.

Lemma matches_literal cs s :
  Fnmatch.matches (Fnmatch.Lit <$> cs) s = true ↔ chars s = cs.
Proof.
  revert s. induction cs as [|c cs IH]; intros [|d s]; simpl; try done.
  rewrite andb_true_iff, bool_decide_eq_true, IH. split.
  - by intros [-> ->].
  - intros H. by simplify_eq.
Qed.

Lemma bare_never_covers p g : bare p = true → covers_group_id p g = false.
Proof.
  intros Hbare. apply not_true_iff_false. unfold covers_group_id.
  rewrite fnmatch_matches, translate_literal.
  - rewrite matches_literal. intros <-%chars_inj. unfold bare in Hbare.
    rewrite all_chars_app in Hbare. apply andb_true_iff in Hbare as [_ Hd].
    vm_compute in Hd. discriminate.
  - unfold bare in Hbare. clear g. induction p as [|c p IH]; simpl in *; [done|].
    apply andb_true_iff in Hbare as [Hc Hp]. rewrite IH by done.
    apply negb_true_iff, orb_false_iff in Hc as [-> _]. done.
Qed.

(** C9. A pattern with no wildcard character and no separator covers no
    identifier, in particular not the identifier equal to it, because the
    text that is matched always ends with the separator and the dummy
    token.  When such a pattern is listed it is reported as stale,
    whatever the managed groupIds are. *)
Theorem bare_pattern_never_covers (pattern : string) :
  bare pattern = true →
  covers_group_id pattern pattern = false
  ∧ (∀ group_id, covers_group_id pattern group_id = false)
  ∧ (∀ (id_of : path → Z) (set_order : gset string → list string)
       (pom : Element) (dependabot_text : string),
       pattern ∈ extract_maven_plugins_patterns dependabot_text →
       stale_message pattern ∈ main id_of set_order pom dependabot_text).
Proof.
  intros Hbare. split_and!.
  - by apply bare_never_covers.
  - intros g. by apply bare_never_covers.
  - intros id_of set_order pom dependabot_text Hin. rewrite main_split.
    apply elem_of_app. right.
    rewrite coverage_errors_report
      by (intros E; rewrite E in Hin; by apply elem_of_nil in Hin).
    rewrite app_nil_l. apply elem_of_app. right.
    apply elem_of_flat_map. exists pattern. split; [done|].
    assert (existsb (λ gid, covers_group_id pattern gid)
              (set_order (collect_pm_group_ids id_of ([], pom))) = false) as ->.
    { apply existsb_false. intros g _. by apply bare_never_covers. }
    by apply list_elem_of_singleton.
Qed.

Lemma bare_pattern_never_covers_witness :
  bare "com.example.tools" = true
  ∧ covers_group_id "com.example.tools" "com.example.tools" = false.
Proof.
  assert (bare "com.example.tools" = true) as Hbare by (vm_compute; reflexivity).
  split; [exact Hbare|].
  exact (proj1 (bare_pattern_never_covers "com.example.tools" Hbare)).
Defined.

(** A pattern whose tail takes up the separator and the token does cover. *)
Lemma suffixed_pattern_covers :
  covers_group_id "com.example.tools:*" "com.example.tools" = true
  ∧ covers_group_id "com.example.*" "com.example.tools" = true
  ∧ covers_group_id "com.example.tools" "com.example.tools" = false.
Proof. split_and!; vm_compute; reflexivity. Qed.

(** ** The block extractor *)

Lemma find_line_from_after lines pattern stop_indent rest i :
  rest = drop i lines →
  match find_line_from i rest pattern stop_indent with
  | Some j =>
      ∃ l, lines !! j = Some l
           ∧ find_after rest pattern stop_indent = Some (l, drop (S j) lines)
  | None => find_after rest pattern stop_indent = None
  end.
Proof.
  revert i. induction rest as [|l rest IH]; intros i Hrest; simpl; [done|].
  assert (lines !! i = Some l) as Hl.
  { rewrite <-(Nat.add_0_r i), <-lookup_drop, <-Hrest. done. }
  assert (rest = drop (S i) lines) as Hrest'.
  { rewrite (drop_S _ _ _ Hl) in Hrest. by injection Hrest. }
  destruct (skipped (Py.strip l)); [by apply IH|].
  destruct (at_or_below _ _); [done|].
  destruct (pattern (Py.strip l)); [|by apply IH].
  exists l. by rewrite Hrest'.
Qed.

Lemma find_line_after lines start pattern stop_indent :
  match find_line lines start pattern stop_indent with
  | Some j =>
      ∃ l, lines !! j = Some l
           ∧ find_after (drop (S start) lines) pattern stop_indent
             = Some (l, drop (S j) lines)
  | None => find_after (drop (S start) lines) pattern stop_indent = None
  end.
Proof.
  unfold find_line. rewrite Nat.add_1_r. by apply find_line_from_after.
Qed.

Lemma list_find_ecosystem lines :
  find_ecosystem lines
  = (λ il : nat * string, (il.2, drop (S il.1) lines))
    <$> list_find (λ l, Re.search_ecosystem l = true) lines.
Proof.
  induction lines as [|l lines IH]; simpl; [done|].
  case_decide as Hl.
  - by rewrite Hl.
  - apply not_true_is_false in Hl. rewrite Hl, IH.
    by destruct (list_find _ lines) as [[i x]|].
Qed.

Lemma line_at_lookup lines i l : lines !! i = Some l → line_at lines i = l.
Proof. unfold line_at. by intros ->. Qed.

(** The extractor only ever looks at the lines after the marker found last. *)
Lemma extract_from_lines_by_suffix lines :
  extract_from_lines lines = extract_by_suffix lines.
Proof.
  unfold extract_from_lines, extract_by_suffix, locate_patterns_line,
    locate_by_suffix.
  rewrite list_find_ecosystem.
  destruct (list_find _ lines) as [[m maven]|] eqn:Hm; simpl; [|done].
  apply list_find_Some in Hm as (Hm & _ & _).
  rewrite (line_at_lookup _ _ _ Hm).
  pose proof (find_line_after lines m Re.groups (Some (indent_of maven))) as Hg.
  destruct (find_line lines m _ _) as [g|]; simpl; [|by rewrite Hg].
  destruct Hg as (groups & Hgl & ->). rewrite (line_at_lookup _ _ _ Hgl).
  pose proof (find_line_after lines g Re.maven_plugins (Some (indent_of groups)))
    as Hp.
  destruct (find_line lines g _ _) as [p|]; simpl; [|by rewrite Hp].
  destruct Hp as (mp & Hpl & ->). rewrite (line_at_lookup _ _ _ Hpl).
  pose proof (find_line_after lines p Re.patterns (Some (indent_of mp))) as Hq.
  destruct (find_line lines p _ _) as [q|]; simpl; [|by rewrite Hq].
  destruct Hq as (pl & Hql & ->). rewrite (line_at_lookup _ _ _ Hql).
  by rewrite Nat.add_1_r.
Qed.

Lemma Inserted_refl c r : Inserted c r r.
Proof. by left. Qed.

Lemma Inserted_cons c x r r' : Inserted c r r' → Inserted c (x :: r) (x :: r').
Proof.
  intros [->|(a & b & -> & ->)]; [by left|]. right. by exists (x :: a), b.
Qed.

Lemma same_found_refl c o : same_found c o o.
Proof. destruct o as [[l t]|]; simpl; [|done]. split; [done|apply Inserted_refl]. Qed.

Section Insertion.

Context (c : string) (c_skipped : skipped (Py.strip c) = true).

Lemma find_after_inserted pattern stop_indent r r' :
  Inserted c r r' →
  same_found c (find_after r pattern stop_indent)
               (find_after r' pattern stop_indent).
Proof using c_skipped.
  intros [->|(a & b & -> & ->)]; [apply same_found_refl|].
  induction a as [|x a IH]; simpl.
  - rewrite c_skipped. apply same_found_refl.
  - destruct (skipped (Py.strip x)); [done|].
    destruct (at_or_below _ _); [done|].
    destruct (pattern (Py.strip x)); [|done].
    split; [done|]. right. by exists a, b.
Qed.

Lemma collect_patterns_inserted patterns_indent r r' :
  Inserted c r r' →
  collect_patterns patterns_indent r = collect_patterns patterns_indent r'.
Proof using c_skipped.
  intros [->|(a & b & -> & ->)]; [done|].
  induction a as [|x a IH]; simpl.
  - by rewrite c_skipped.
  - destruct (skipped (Py.strip x)); [done|].
    destruct (_ <=? _); [done|].
    destruct (Re.match_item _); by rewrite ?IH.
Qed.

Lemma find_ecosystem_inserted r r' :
  Re.search_ecosystem c = false →
  Inserted c r r' → same_found c (find_ecosystem r) (find_ecosystem r').
Proof.
  intros Hc [->|(a & b & -> & ->)]; [apply same_found_refl|].
  induction a as [|x a IH]; simpl.
  - rewrite Hc. apply same_found_refl.
  - destruct (Re.search_ecosystem x); [|done].
    split; [done|]. right. by exists a, b.
Qed.

(** Putting in a blank or comment line that does not hold the ecosystem
    marker leaves the extracted patterns unchanged. *)
Lemma extract_from_lines_inserted l1 l2 :
  Re.search_ecosystem c = false →
  extract_from_lines (l1 ++ c :: l2) = extract_from_lines (l1 ++ l2).
Proof using c_skipped.
  intros Hc. rewrite !extract_from_lines_by_suffix.
  unfold extract_by_suffix, locate_by_suffix.
  assert (Inserted c (l1 ++ l2) (l1 ++ c :: l2)) as Hins by (right; eauto).
  apply (find_ecosystem_inserted _ _ Hc) in Hins.
  destruct (find_ecosystem (l1 ++ l2)) as [[m r]|],
    (find_ecosystem (l1 ++ c :: l2)) as [[m' r']|]; try done.
  destruct Hins as [<- Hins].
  apply (find_after_inserted Re.groups (Some (indent_of m))) in Hins.
  destruct (find_after r _ _) as [[g s]|], (find_after r' _ _) as [[g' s']|];
    try done.
  destruct Hins as [<- Hins].
  apply (find_after_inserted Re.maven_plugins (Some (indent_of g))) in Hins.
  destruct (find_after s _ _) as [[p t]|], (find_after s' _ _) as [[p' t']|];
    try done.
  destruct Hins as [<- Hins].
  apply (find_after_inserted Re.patterns (Some (indent_of p))) in Hins.
  destruct (find_after t _ _) as [[q u]|], (find_after t' _ _) as [[q' u']|];
    try done.
  destruct Hins as [<- Hins]. symmetry. by apply collect_patterns_inserted.
Qed.

End Insertion.

Lemma blank_line_no_marker c :
  Py.strip c = EmptyString → Re.search_ecosystem c = false.
Proof.
  intros Hc%strip_empty_iff. induction c as [|a c IH]; [done|].
  simpl in Hc. apply andb_true_iff in Hc as [Ha Hc].
  simpl. rewrite (IH Hc), orb_false_r. unfold Re.ecosystem_at. simpl.
  case_bool_decide as Hp; [|done]. subst a. vm_compute in Ha. discriminate.
Qed.

(** Putting in a blank line never changes the extracted patterns. *)
Lemma extract_from_lines_blank c l1 l2 :
  Py.strip c = EmptyString →
  extract_from_lines (l1 ++ c :: l2) = extract_from_lines (l1 ++ l2).
Proof.
  intros Hc. apply extract_from_lines_inserted.
  - unfold skipped. by rewrite Hc.
  - by apply blank_line_no_marker.
Qed.

(** A line that is neither blank nor a comment and is indented no deeper
    than the [patterns:] key ends the list before it. *)
Lemma collect_patterns_dedent patterns_indent a l b :
  skipped (Py.strip l) = false →
  indent_of l ≤ patterns_indent →
  collect_patterns patterns_indent (a ++ l :: b)
  = collect_patterns patterns_indent a.
Proof.
  intros Hl Hind. induction a as [|x a IH]; simpl.
  - rewrite Hl. by apply Nat.leb_le in Hind as ->.
  - destruct (skipped (Py.strip x)); [done|].
    destruct (_ <=? _); [done|].
    destruct (Re.match_item _); by rewrite ?IH.
Qed.

(** C6. The search for the ecosystem marker does not skip comment lines,
    unlike every later step of the extractor: the commented-out entry is a
    comment line, and once it is put in above the live entry the pattern of
    the block is no longer extracted. *)
Theorem comment_marker_hides_block :
  Py.startswith (Py.strip marker_comment) "#" = true
  ∧ skipped (Py.strip marker_comment) = true
  ∧ Re.search_ecosystem marker_comment = true
  ∧ extract_from_lines (sample_lines [sample_item]) = ["other.group:*"]
  ∧ extract_from_lines (commented_lines [sample_item]) = []
  ∧ extract_maven_plugins_patterns (unlines (sample_lines [sample_item]))
    = ["other.group:*"]
  ∧ extract_maven_plugins_patterns (unlines (commented_lines [sample_item])) = [].
Proof. split_and!; vm_compute; reflexivity. Qed.

(** ** The checker on the sample inputs *)

(** A managed plugin covered by the listed pattern: nothing to report. *)
Lemma scenario_consistent :
  main path_id elements managed_only_pom covering_config = [].
Proof. vm_compute. reflexivity. Qed.

(** The plugin repeated outside management with a version: one message of
    check 1; the plugin-local dependency with a version is not reported. *)
Lemma scenario_stray_plugin_version :
  main path_id elements sample_pom covering_config
  = [stray_message "com.example.tools" "checker" "1.2.3" "pluginManagement"].
Proof. vm_compute. reflexivity. Qed.

(** A pattern for another group: the groupId is uncovered and the pattern
    is stale. *)
Lemma scenario_uncovered_and_stale :
  main path_id elements managed_only_pom sample_config
  = [uncovered_message "com.example.tools"; stale_message "other.group:*"].
Proof. vm_compute. reflexivity. Qed.

(** No [groups:] key: the missing-block message alone. *)
Lemma scenario_no_groups_key :
  locate_patterns_line (Py.splitlines no_groups_config) = None
  ∧ main path_id elements managed_only_pom no_groups_config
    = [missing_block_message].
Proof. split; vm_compute; reflexivity. Qed.

(** * Further properties of the script *)

(** ** The line search *)

Lemma find_line_from_Some rest i pattern stop_indent j :
  find_line_from i rest pattern stop_indent = Some j ↔
  ∃ k l, j = i + k ∧ rest !! k = Some l
    ∧ significant l = true
    ∧ at_or_below (indent_of l) stop_indent = false
    ∧ pattern (Py.strip l) = true
    ∧ ∀ k' x, k' < k → rest !! k' = Some x →
        significant x = false
        ∨ (at_or_below (indent_of x) stop_indent = false
           ∧ pattern (Py.strip x) = false).
Proof.
  unfold significant. revert i. induction rest as [|l rest IH]; intros i; simpl.
  - split; [done|]. by intros (k & l & _ & ? & _).
  - destruct (skipped (Py.strip l)) eqn:Hskip; simpl.
    { rewrite IH. split.
      - intros (k & x & -> & Hx & Hs & Hi & Hp & Hbefore).
        exists (S k), x. split_and!; [lia|done..|].
        intros [|k'] y Hk' Hy; simplify_eq/=.
        + left. by rewrite Hskip.
        + apply (Hbefore k'); [lia|done].
      - intros ([|k] & x & -> & Hx & Hs & Hi & Hp & Hbefore); simplify_eq/=.
        + by rewrite Hskip in Hs.
        + exists k, x. split_and!; [lia|done..|].
          intros k' y Hk' Hy. apply (Hbefore (S k')); [lia|done]. }
    destruct (at_or_below (indent_of l) stop_indent) eqn:Hstop.
    { split; [done|].
      intros ([|k] & x & -> & Hx & Hs & Hi & Hp & Hbefore); simplify_eq/=.
      - by rewrite Hstop in Hi.
      - destruct (Hbefore 0 l ltac:(lia) eq_refl) as [Hl|[Hl _]].
        + by rewrite Hskip in Hl.
        + by rewrite Hstop in Hl. }
    destruct (pattern (Py.strip l)) eqn:Hpat.
    { split.
      - intros [= <-]. exists 0, l. rewrite Hskip.
        split_and!; [lia|done..|]. intros ??; lia.
      - intros ([|k] & x & -> & Hx & Hs & Hi & Hp & Hbefore); simplify_eq/=.
        + f_equal. lia.
        + destruct (Hbefore 0 l ltac:(lia) eq_refl) as [Hl|[_ Hl]].
          * by rewrite Hskip in Hl.
          * by rewrite Hpat in Hl. }
    rewrite IH. split.
    + intros (k & x & -> & Hx & Hs & Hi & Hp & Hbefore).
      exists (S k), x. split_and!; [lia|done..|].
      intros [|k'] y Hk' Hy; simplify_eq/=.
      * right. done.
      * apply (Hbefore k'); [lia|done].
    + intros ([|k] & x & -> & Hx & Hs & Hi & Hp & Hbefore); simplify_eq/=.
      * by rewrite Hpat in Hp.
      * exists k, x. split_and!; [lia|done..|].
        intros k' y Hk' Hy. apply (Hbefore (S k')); [lia|done].
Qed.

Lemma find_line_Some lines start pattern stop_indent j :
  find_line lines start pattern stop_indent = Some j ↔
  start < j
  ∧ ∃ l, lines !! j = Some l
    ∧ significant l = true
    ∧ at_or_below (indent_of l) stop_indent = false
    ∧ pattern (Py.strip l) = true
    ∧ ∀ i x, start < i < j → lines !! i = Some x →
        significant x = false
        ∨ (at_or_below (indent_of x) stop_indent = false
           ∧ pattern (Py.strip x) = false).
Proof.
  unfold find_line. rewrite find_line_from_Some. split.
  - intros (k & l & -> & Hl & Hs & Hi & Hp & Hbefore).
    rewrite lookup_drop in Hl. split; [lia|]. exists l. split_and!; try done.
    intros i x Hi' Hx. apply (Hbefore (i - (start + 1))); [lia|].
    rewrite lookup_drop. rewrite <-Hx. f_equal. lia.
  - intros (Hj & l & Hl & Hs & Hi & Hp & Hbefore).
    exists (j - (start + 1)), l. split_and!; [lia| |done..|].
    + rewrite lookup_drop. rewrite <-Hl. f_equal. lia.
    + intros k' x Hk' Hx. rewrite lookup_drop in Hx.
      apply (Hbefore (start + 1 + k')); [lia|done].
Qed.

Lemma at_or_below_false i k : at_or_below i (Some k) = false ↔ k < i.
Proof. simpl. by rewrite Nat.leb_gt. Qed.

(** X2. [find_line] returns the first line after [start] that is neither
    blank nor a comment and matches the pattern, provided that it and every
    such line before it is indented deeper than [stop_indent]; in every
    other case it returns [None]. *)
Theorem find_line_first_match (lines : list string) (start : nat)
    (pattern : string → bool) (stop_indent : option nat) (j : nat) :
  find_line lines start pattern stop_indent = Some j ↔
  start < j
  ∧ ∃ l, lines !! j = Some l
    ∧ significant l = true
    ∧ at_or_below (indent_of l) stop_indent = false
    ∧ pattern (Py.strip l) = true
    ∧ ∀ i x, start < i < j → lines !! i = Some x →
        significant x = false
        ∨ (at_or_below (indent_of x) stop_indent = false
           ∧ pattern (Py.strip x) = false).
Proof. apply find_line_Some. Qed.

Lemma find_line_from_cut i a l b pattern stop_indent :
  significant l = true →
  at_or_below (indent_of l) stop_indent = true →
  find_line_from i (a ++ l :: b) pattern stop_indent
  = find_line_from i a pattern stop_indent.
Proof.
  unfold significant. intros Hs%negb_true_iff Hstop. revert i.
  induction a as [|x a IH]; intros i; simpl.
  - by rewrite Hs, Hstop.
  - by rewrite !IH.
Qed.

(** X3. The search never looks past the end of the block: a line that is
    neither blank nor a comment and is indented no deeper than
    [stop_indent] hides itself and everything after it. *)
Theorem find_line_stops_at_block_end (before after : list string) (l : string)
    (start : nat) (pattern : string → bool) (k : nat) :
  start < length before →
  significant l = true →
  indent_of l ≤ k →
  find_line (before ++ l :: after) start pattern (Some k)
  = find_line before start pattern (Some k).
Proof.
  intros Hstart Hl Hk. unfold find_line.
  rewrite drop_app_le by lia. apply find_line_from_cut; [done|].
  simpl. by apply Nat.leb_le.
Qed.

Lemma find_line_stops_at_block_end_witness :
  0 < length ["a:"; "  b:"]
  ∧ significant "c:" = true
  ∧ indent_of "c:" ≤ 0
  ∧ find_line (["a:"; "  b:"] ++ "c:" :: ["  groups:"]) 0 Re.groups (Some 0)
    = find_line ["a:"; "  b:"] 0 Re.groups (Some 0).
Proof.
  assert (0 < length ["a:"; "  b:"]) as H1 by (simpl; lia).
  assert (significant "c:" = true) as H2 by (vm_compute; reflexivity).
  assert (indent_of "c:" ≤ 0) as H3 by (vm_compute; lia).
  split_and!; [exact H1|exact H2|exact H3|].
  exact (find_line_stops_at_block_end ["a:"; "  b:"] ["  groups:"] "c:" 0
           Re.groups 0 H1 H2 H3).
Defined.

(** ** The chain of markers *)

Lemma locate_patterns_line_by_suffix lines :
  match locate_patterns_line lines with
  | Some q =>
      ∃ lq, lines !! q = Some lq
            ∧ locate_by_suffix lines = Some (lq, drop (S q) lines)
  | None => locate_by_suffix lines = None
  end.
Proof.
  unfold locate_patterns_line, locate_by_suffix.
  rewrite list_find_ecosystem.
  destruct (list_find _ lines) as [[m maven]|] eqn:Hm; simpl; [|done].
  apply list_find_Some in Hm as (Hm & _ & _).
  rewrite (line_at_lookup _ _ _ Hm).
  pose proof (find_line_after lines m Re.groups (Some (indent_of maven))) as Hg.
  destruct (find_line lines m _ _) as [g|]; simpl; [|by rewrite Hg].
  destruct Hg as (groups & Hgl & ->). rewrite (line_at_lookup _ _ _ Hgl).
  pose proof (find_line_after lines g Re.maven_plugins (Some (indent_of groups)))
    as Hp.
  destruct (find_line lines g _ _) as [p|]; simpl; [|by rewrite Hp].
  destruct Hp as (mp & Hpl & ->). rewrite (line_at_lookup _ _ _ Hpl).
  pose proof (find_line_after lines p Re.patterns (Some (indent_of mp))) as Hq.
  destruct (find_line lines p _ _) as [q|]; simpl; [|by rewrite Hq].
  destruct Hq as (pl & Hql & ->). eauto.
Qed.

(** X4. When the chain of markers is found, the four marker lines come in
    this order, each later one indented strictly deeper than the one
    before; the ecosystem line is the first line of the file holding the
    marker, and the three keys are lines that are neither blank nor
    comments. *)
Theorem located_markers_nest (lines : list string) (q : nat) :
  locate_patterns_line lines = Some q →
  ∃ m g p lm lg lp lq,
    lines !! m = Some lm ∧ lines !! g = Some lg
    ∧ lines !! p = Some lp ∧ lines !! q = Some lq
    ∧ m < g ∧ g < p ∧ p < q
    ∧ indent_of lm < indent_of lg
    ∧ indent_of lg < indent_of lp
    ∧ indent_of lp < indent_of lq
    ∧ Re.search_ecosystem lm = true
    ∧ (∀ i x, i < m → lines !! i = Some x → Re.search_ecosystem x = false)
    ∧ Re.groups (Py.strip lg) = true
    ∧ Re.maven_plugins (Py.strip lp) = true
    ∧ Re.patterns (Py.strip lq) = true
    ∧ significant lg = true ∧ significant lp = true ∧ significant lq = true.
Proof.
  unfold locate_patterns_line.
  destruct (list_find _ lines) as [[m lm]|] eqn:Hm; simpl; [|done].
  apply list_find_Some in Hm as (Hm & Hsearch & Hfirst).
  rewrite (line_at_lookup _ _ _ Hm).
  destruct (find_line lines m _ _) as [g|] eqn:Hg; simpl; [|done].
  apply find_line_Some in Hg as (Hmg & lg & Hlg & Hsg & Hig%at_or_below_false & Hpg & _).
  rewrite (line_at_lookup _ _ _ Hlg).
  destruct (find_line lines g _ _) as [p|] eqn:Hp; simpl; [|done].
  apply find_line_Some in Hp as (Hgp & lp & Hlp & Hsp & Hip%at_or_below_false & Hpp & _).
  rewrite (line_at_lookup _ _ _ Hlp).
  intros (Hpq & lq & Hlq & Hsq & Hiq%at_or_below_false & Hpq' & _)%find_line_Some.
  exists m, g, p, lm, lg, lp, lq. split_and!; try done.
  intros i x Hi Hx. apply not_true_is_false. by apply (Hfirst i x).
Qed.

Lemma located_markers_nest_witness :
  locate_patterns_line (sample_lines [sample_item]) = Some 6
  ∧ ∃ m g p lm lg lp lq,
    sample_lines [sample_item] !! m = Some lm
    ∧ sample_lines [sample_item] !! g = Some lg
    ∧ sample_lines [sample_item] !! p = Some lp
    ∧ sample_lines [sample_item] !! 6 = Some lq
    ∧ m < g ∧ g < p ∧ p < 6
    ∧ indent_of lm < indent_of lg
    ∧ indent_of lg < indent_of lp
    ∧ indent_of lp < indent_of lq
    ∧ Re.search_ecosystem lm = true
    ∧ (∀ i x, i < m → sample_lines [sample_item] !! i = Some x →
         Re.search_ecosystem x = false)
    ∧ Re.groups (Py.strip lg) = true
    ∧ Re.maven_plugins (Py.strip lp) = true
    ∧ Re.patterns (Py.strip lq) = true
    ∧ significant lg = true ∧ significant lp = true ∧ significant lq = true.
Proof.
  assert (locate_patterns_line (sample_lines [sample_item]) = Some 6) as H
    by (vm_compute; reflexivity).
  split; [exact H|].
  exact (located_markers_nest (sample_lines [sample_item]) 6 H).
Defined.

(** ** The extracted patterns *)

Lemma take_while_all f s : Py.all_chars f (Py.take_while f s) = true.
Proof.
  induction s as [|c s IH]; simpl; [done|].
  destruct (f c) eqn:Hc; simpl; [|done]. by rewrite Hc.
Qed.

Lemma match_item_shape s g :
  Re.match_item s = Some g →
  g ≠ EmptyString ∧ Py.all_chars pattern_char g = true.
Proof.
  unfold Re.match_item. destruct s as [|d r]; [done|].
  destruct (decide (d = "-"%char)) as [->|Hd].
  - match goal with
    | |- context [Py.take_while ?f ?r] =>
        pose proof (take_while_all f r) as Hall;
        destruct (Py.take_while f r) as [|c g'] eqn:Ht; [done|]
    end.
    intros [= <-]. done.
  - by destruct d as [[] [] [] [] [] [] [] []].
Qed.

Lemma elem_of_collect_patterns patterns_indent rest g :
  g ∈ collect_patterns patterns_indent rest →
  ∃ l, l ∈ rest ∧ significant l = true ∧ patterns_indent < indent_of l
       ∧ Re.match_item (Py.strip l) = Some g.
Proof.
  unfold significant. induction rest as [|l rest IH]; simpl.
  - by intros ?%elem_of_nil.
  - destruct (skipped (Py.strip l)) eqn:Hs.
    { intros (x & ? & ?)%IH. exists x. split; [by right|done]. }
    destruct (indent_of l <=? patterns_indent) eqn:Hi.
    { by intros ?%elem_of_nil. }
    apply Nat.leb_gt in Hi.
    destruct (Re.match_item (Py.strip l)) as [g'|] eqn:Hm.
    + intros [->|(x & ? & ?)%IH]%elem_of_cons.
      * exists l. rewrite Hs. split_and!; [left|done..].
      * exists x. split; [by right|done].
    + intros (x & ? & ?)%IH. exists x. split; [by right|done].
Qed.

(** X5. Every extracted pattern is a non-empty string without quote or
    white-space characters, read from a line of the configuration that is
    neither blank nor a comment. *)
Theorem extracted_patterns_shape (dependabot_text pattern : string) :
  pattern ∈ extract_maven_plugins_patterns dependabot_text →
  pattern ≠ EmptyString
  ∧ Py.all_chars pattern_char pattern = true
  ∧ ∃ l, l ∈ Py.splitlines dependabot_text
         ∧ significant l = true
         ∧ Re.match_item (Py.strip l) = Some pattern.
Proof.
  unfold extract_maven_plugins_patterns, extract_from_lines.
  destruct (locate_patterns_line _) as [q|]; [|by intros ?%elem_of_nil].
  intros (l & Hl & Hs & _ & Hm)%elem_of_collect_patterns.
  destruct (match_item_shape _ _ Hm) as [Hne Hall]. split_and!; [done..|].
  exists l. split_and!; [|done..].
  apply list_elem_of_lookup in Hl as [i Hi]. rewrite lookup_drop in Hi.
  apply list_elem_of_lookup. eauto.
Qed.

Lemma extracted_patterns_shape_witness :
  "other.group:*" ∈ extract_maven_plugins_patterns sample_config
  ∧ "other.group:*" ≠ EmptyString
  ∧ Py.all_chars pattern_char "other.group:*" = true.
Proof.
  assert ("other.group:*" ∈ extract_maven_plugins_patterns sample_config) as H
    by (vm_compute; left).
  split; [exact H|].
  pose proof (extracted_patterns_shape sample_config "other.group:*" H) as Hs.
  split; [exact (proj1 Hs)|exact (proj1 (proj2 Hs))].
Defined.

(** ** What the extractor ignores *)

Lemma find_ecosystem_skip before lines :
  (∀ l, l ∈ before → Re.search_ecosystem l = false) →
  find_ecosystem (before ++ lines) = find_ecosystem lines.
Proof.
  induction before as [|x before IH]; intros Hb; simpl; [done|].
  rewrite (Hb x) by left. apply IH. intros l Hl. apply Hb. by right.
Qed.

(** X6. Lines before the ecosystem entry do not matter: as long as none of
    them holds the ecosystem marker, the extractor gives the same patterns
    with and without them. *)
Theorem content_before_marker_ignored (before lines : list string) :
  (∀ l, l ∈ before → Re.search_ecosystem l = false) →
  extract_from_lines (before ++ lines) = extract_from_lines lines.
Proof.
  intros Hb. rewrite !extract_from_lines_by_suffix.
  unfold extract_by_suffix, locate_by_suffix. by rewrite find_ecosystem_skip.
Qed.

Lemma content_before_marker_ignored_witness :
  (∀ l, l ∈ ["# managed by hand"; "registries: none"] →
        Re.search_ecosystem l = false)
  ∧ extract_from_lines (["# managed by hand"; "registries: none"]
                        ++ sample_lines [sample_item])
    = extract_from_lines (sample_lines [sample_item]).
Proof.
  assert (∀ l, l ∈ ["# managed by hand"; "registries: none"] →
               Re.search_ecosystem l = false) as H.
  { intros l [->|[->|[]%elem_of_nil]%elem_of_cons]%elem_of_cons;
      vm_compute; reflexivity. }
  split; [exact H|].
  exact (content_before_marker_ignored _ (sample_lines [sample_item]) H).
Defined.

Lemma extract_by_suffix_same_start c r r' :
  skipped (Py.strip c) = true →
  same_found c (find_ecosystem r) (find_ecosystem r') →
  extract_by_suffix r = extract_by_suffix r'.
Proof.
  intros Hc Hins. unfold extract_by_suffix, locate_by_suffix.
  destruct (find_ecosystem r) as [[m t]|], (find_ecosystem r') as [[m' t']|];
    try done.
  destruct Hins as [<- Hins].
  apply (find_after_inserted c Hc Re.groups (Some (indent_of m))) in Hins.
  destruct (find_after t _ _) as [[g s]|], (find_after t' _ _) as [[g' s']|];
    try done.
  destruct Hins as [<- Hins].
  apply (find_after_inserted c Hc Re.maven_plugins (Some (indent_of g))) in Hins.
  destruct (find_after s _ _) as [[p u]|], (find_after s' _ _) as [[p' u']|];
    try done.
  destruct Hins as [<- Hins].
  apply (find_after_inserted c Hc Re.patterns (Some (indent_of p))) in Hins.
  destruct (find_after u _ _) as [[q v]|], (find_after u' _ _) as [[q' v']|];
    try done.
  destruct Hins as [<- Hins]. by apply (collect_patterns_inserted c).
Qed.

Lemma find_ecosystem_below_marker c l1 l2 :
  Exists (λ l, Re.search_ecosystem l = true) l1 →
  same_found c (find_ecosystem (l1 ++ l2)) (find_ecosystem (l1 ++ c :: l2)).
Proof.
  induction 1 as [x l1 Hx|x l1 _ IH]; simpl.
  - rewrite Hx. split; [done|]. right. eauto.
  - destruct (Re.search_ecosystem x); [|done]. split; [done|]. right. eauto.
Qed.

(** X7. Putting a blank line or a comment line into the configuration does
    not change the extracted patterns when the line is blank, or does not
    hold the ecosystem marker, or is put in below a line that holds it. *)
Theorem skipped_line_insertion (c : string) (l1 l2 : list string) :
  significant c = false →
  Py.strip c = EmptyString
  ∨ Re.search_ecosystem c = false
  ∨ Exists (λ l, Re.search_ecosystem l = true) l1 →
  extract_from_lines (l1 ++ c :: l2) = extract_from_lines (l1 ++ l2).
Proof.
  unfold significant. intros Hc%negb_false_iff Hcase.
  rewrite !extract_from_lines_by_suffix. symmetry.
  apply (extract_by_suffix_same_start c); [done|].
  destruct Hcase as [Hb%blank_line_no_marker|[Hm|Hbelow]].
  - apply find_ecosystem_inserted; [done|]. right. eauto.
  - apply find_ecosystem_inserted; [done|]. right. eauto.
  - by apply find_ecosystem_below_marker.
Qed.

Lemma skipped_line_insertion_witness :
  significant marker_comment = false
  ∧ Exists (λ l, Re.search_ecosystem l = true) (take 3 (sample_lines [sample_item]))
  ∧ extract_from_lines (take 3 (sample_lines [sample_item])
                        ++ marker_comment :: drop 3 (sample_lines [sample_item]))
    = extract_from_lines (take 3 (sample_lines [sample_item])
                          ++ drop 3 (sample_lines [sample_item])).
Proof.
  assert (significant marker_comment = false) as H1 by (vm_compute; reflexivity).
  assert (Exists (λ l, Re.search_ecosystem l = true)
            (take 3 (sample_lines [sample_item]))) as H2.
  { do 2 apply Exists_cons_tl. apply Exists_cons_hd. vm_compute. reflexivity. }
  split_and!; [exact H1|exact H2|].
  exact (skipped_line_insertion marker_comment _ _ H1 (or_intror (or_intror H2))).
Defined.

Lemma find_after_app a b pattern stop_indent l r :
  find_after a pattern stop_indent = Some (l, r) →
  find_after (a ++ b) pattern stop_indent = Some (l, r ++ b).
Proof.
  induction a as [|x a IH]; simpl; [done|].
  destruct (skipped (Py.strip x)); [done|].
  destruct (at_or_below _ _); [done|].
  destruct (pattern (Py.strip x)); [|done]. by intros [= <- <-].
Qed.

Lemma find_ecosystem_app a b l r :
  find_ecosystem a = Some (l, r) → find_ecosystem (a ++ b) = Some (l, r ++ b).
Proof.
  induction a as [|x a IH]; simpl; [done|].
  destruct (Re.search_ecosystem x); [|done]. by intros [= <- <-].
Qed.

Lemma locate_by_suffix_app a b l r :
  locate_by_suffix a = Some (l, r) → locate_by_suffix (a ++ b) = Some (l, r ++ b).
Proof.
  unfold locate_by_suffix.
  destruct (find_ecosystem a) as [[m t]|] eqn:Hm; [|done].
  rewrite (find_ecosystem_app _ b _ _ Hm).
  destruct (find_after t _ _) as [[g s]|] eqn:Hg; [|done].
  rewrite (find_after_app _ b _ _ _ _ Hg).
  destruct (find_after s _ _) as [[p u]|] eqn:Hp; [|done].
  rewrite (find_after_app _ b _ _ _ _ Hp).
  apply find_after_app.
Qed.

(** X8. Once the [patterns:] key has been found, a later line that is
    neither blank nor a comment and is indented no deeper than the key ends
    the list: that line and everything after it are ignored. *)
Theorem lines_after_block_ignored (lines after : list string) (l lq : string)
    (q : nat) :
  locate_patterns_line lines = Some q →
  lines !! q = Some lq →
  significant l = true →
  indent_of l ≤ indent_of lq →
  extract_from_lines (lines ++ l :: after) = extract_from_lines lines.
Proof.
  unfold significant. intros Hq Hlq Hl%negb_true_iff Hind.
  rewrite !extract_from_lines_by_suffix. unfold extract_by_suffix.
  pose proof (locate_patterns_line_by_suffix lines) as Hloc.
  rewrite Hq in Hloc. destruct Hloc as (lq' & Hlq' & Hloc). simplify_eq.
  rewrite (locate_by_suffix_app _ (l :: after) _ _ Hloc), Hloc.
  by apply collect_patterns_dedent.
Qed.

Lemma lines_after_block_ignored_witness :
  locate_patterns_line (take 8 (sample_lines [sample_item])) = Some 6
  ∧ take 8 (sample_lines [sample_item]) !! 6 = Some "        patterns:"
  ∧ significant "    schedule:" = true
  ∧ indent_of "    schedule:" ≤ indent_of "        patterns:"
  ∧ extract_from_lines (take 8 (sample_lines [sample_item])
                        ++ "    schedule:" :: ["          - 'late:*'"])
    = extract_from_lines (take 8 (sample_lines [sample_item])).
Proof.
  assert (locate_patterns_line (take 8 (sample_lines [sample_item])) = Some 6)
    as H1 by (vm_compute; reflexivity).
  assert (take 8 (sample_lines [sample_item]) !! 6 = Some "        patterns:")
    as H2 by reflexivity.
  assert (significant "    schedule:" = true) as H3 by (vm_compute; reflexivity).
  assert (indent_of "    schedule:" ≤ indent_of "        patterns:") as H4
    by (vm_compute; lia).
  split_and!; [exact H1|exact H2|exact H3|exact H4|].
  exact (lines_after_block_ignored _ ["          - 'late:*'"] _ _ 6 H1 H2 H3 H4).
Defined.

(** ** Reading back list items *)

Lemma string_length_app s1 s2 :
  String.length (s1 +:+ s2) = String.length s1 + String.length s2.
Proof. induction s1 as [|c s1 IH]; [done|]. rewrite string_app_cons. simpl. lia. Qed.

Lemma spaces_S n : spaces (S n) = String " " (spaces n).
Proof. done. Qed.

Lemma lstrip_spaces_app n s : Py.lstrip (spaces n +:+ s) = Py.lstrip s.
Proof.
  induction n as [|n IH]; [done|]. by rewrite spaces_S, string_app_cons.
Qed.

Lemma spaces_length n : String.length (spaces n) = n.
Proof. induction n as [|n IH]; [done|]. rewrite spaces_S. simpl. lia. Qed.

Lemma rstrip_keeps s :
  s ≠ EmptyString → Py.all_chars (λ c, negb (Py.isspace c)) s = true →
  Py.rstrip s = s.
Proof.
  induction s as [|c s IH]; [done|]. intros _ [Hc Hs]%andb_true_iff. simpl.
  apply negb_true_iff in Hc. destruct s as [|d s].
  - simpl. by rewrite Hc.
  - rewrite IH by done. done.
Qed.

Lemma rstrip_app s1 s2 :
  Py.rstrip s2 ≠ EmptyString → Py.rstrip (s1 +:+ s2) = s1 +:+ Py.rstrip s2.
Proof.
  intros H2. induction s1 as [|c s1 IH]; [done|].
  rewrite !string_app_cons. simpl. rewrite IH.
  destruct (s1 +:+ Py.rstrip s2) eqn:E; [|done].
  destruct s1; [|by rewrite string_app_cons in E].
  by rewrite string_app_nil_l in E.
Qed.

Lemma pattern_char_not_space g :
  Py.all_chars pattern_char g = true →
  Py.all_chars (λ c, negb (Py.isspace c)) g = true.
Proof.
  induction g as [|c g IH]; [done|]. simpl. intros [Hc Hg]%andb_true_iff.
  rewrite IH by done. unfold pattern_char in Hc.
  apply negb_true_iff, orb_false_iff in Hc as [_ ->]. done.
Qed.

Lemma take_while_stop f g r :
  Py.all_chars f g = true →
  match r with String q _ => f q = false | EmptyString => True end →
  Py.take_while f (g +:+ r) = g.
Proof.
  intros Hg Hr. induction g as [|c g IH].
  - rewrite string_app_nil_l. destruct r as [|q r]; [done|]. simpl. by rewrite Hr.
  - simpl in Hg. apply andb_true_iff in Hg as [Hc Hg].
    rewrite string_app_cons. simpl. by rewrite Hc, IH.
Qed.

Lemma is_quote_not_space q : Re.is_quote q = true → Py.isspace q = false.
Proof. by destruct q as [[] [] [] [] [] [] [] []]. Qed.

Lemma all_chars_snoc f g q :
  Py.all_chars f g = true → f q = true →
  Py.all_chars f (g +:+ String q EmptyString) = true.
Proof. intros Hg Hq. rewrite all_chars_app, Hg. simpl. by rewrite Hq. Qed.

Lemma quoted_rstrip quote g :
  from_option Re.is_quote true quote = true →
  g ≠ EmptyString → Py.all_chars pattern_char g = true →
  Py.rstrip (quoted quote g) = quoted quote g ∧ quoted quote g ≠ EmptyString.
Proof.
  intros Hq Hne Hall. apply pattern_char_not_space in Hall.
  destruct quote as [q|]; unfold quoted; [|by rewrite rstrip_keeps].
  simpl in Hq. apply is_quote_not_space in Hq.
  split; [|done]. apply rstrip_keeps; [done|].
  cbn [Py.all_chars]. rewrite Hq. simpl negb. cbn [andb].
  apply all_chars_snoc; [done|]. by rewrite Hq.
Qed.

Lemma item_line_strip indent quote g :
  from_option Re.is_quote true quote = true →
  g ≠ EmptyString → Py.all_chars pattern_char g = true →
  Py.strip (item_line indent quote g) = String "-" (String " " (quoted quote g))
  ∧ indent_of (item_line indent quote g) = indent.
Proof.
  intros Hq Hne Hall. unfold item_line, Py.strip, indent_of.
  rewrite lstrip_spaces_app.
  change ("- " +:+ quoted quote g) with (String "-" (String " " (quoted quote g))).
  change (Py.lstrip (String "-" (String " " (quoted quote g))))
    with (String "-" (String " " (quoted quote g))).
  destruct (quoted_rstrip quote g Hq Hne Hall) as [Hr Hn].
  split.
  - change (String "-" (String " " (quoted quote g)))
      with ("- " +:+ quoted quote g).
    rewrite rstrip_app; by rewrite Hr.
  - rewrite string_length_app, spaces_length. lia.
Qed.

Lemma string_app_nil_r s : s +:+ EmptyString = s.
Proof. induction s as [|c s IH]; [done|]. by rewrite string_app_cons, IH. Qed.

Lemma item_line_read indent quote g :
  from_option Re.is_quote true quote = true →
  g ≠ EmptyString → Py.all_chars pattern_char g = true →
  Re.match_item (Py.strip (item_line indent quote g)) = Some g.
Proof.
  intros Hq Hne Hall.
  rewrite (proj1 (item_line_strip indent quote g Hq Hne Hall)).
  destruct g as [|c g]; [done|].
  assert (Re.is_quote c = false ∧ Py.isspace c = false) as [Hcq Hcs].
  { simpl in Hall. apply andb_true_iff in Hall as [Hc _].
    unfold pattern_char in Hc. by apply negb_true_iff, orb_false_iff in Hc. }
  unfold Re.match_item. cbn [Py.lstrip]. 
  change (Py.isspace " ") with true. cbn iota.
  destruct quote as [q|]; simpl in Hq; simpl quoted.
  - assert (Py.lstrip (String q (String c g +:+ String q EmptyString))
            = String q (String c g +:+ String q EmptyString)) as ->
      by (simpl; by rewrite (is_quote_not_space q Hq)).
    rewrite Hq. fold pattern_char.
    rewrite take_while_stop; [done|done|]. unfold pattern_char. by rewrite Hq.
  - assert (Py.lstrip (String c g) = String c g) as ->
      by (simpl; by rewrite Hcs).
    rewrite Hcq. fold pattern_char.
    rewrite <-(string_app_nil_r (String c g)) at 1.
    rewrite take_while_stop; done.
Qed.

Lemma render_item_read k it :
  well_formed_item k it →
  skipped (Py.strip (render_item it)) = false
  ∧ (indent_of (render_item it) <=? k) = false
  ∧ Re.match_item (Py.strip (render_item it)) = Some (item_pattern it).
Proof.
  intros (Hk & Hq & Hne & Hall). unfold render_item.
  destruct (item_line_strip (item_indent it) _ _ Hq Hne Hall) as [Hs Hi].
  split_and!.
  - by rewrite Hs.
  - rewrite Hi. by apply Nat.leb_gt.
  - by apply item_line_read.
Qed.

Lemma collect_rendered_items k items :
  Forall (well_formed_item k) items →
  collect_patterns k (render_item <$> items) = item_pattern <$> items.
Proof.
  induction 1 as [|it items Hit _ IH]; [done|].
  destruct (render_item_read k it Hit) as (Hs & Hi & Hm).
  rewrite !fmap_cons. simpl. by rewrite Hs, Hi, Hm, IH.
Qed.

(** X9. List items are read back as written: a dash, a space and the
    pattern, bare or between two quote characters, at any indentation deeper
    than the key, yield the patterns in order; this holds for the loop over
    the items and for the extractor on the sample configuration with any
    such items in its block. *)
Theorem items_read_back (k : nat) (items : list Item) :
  Forall (well_formed_item k) items →
  collect_patterns k (render_item <$> items) = item_pattern <$> items
  ∧ (k = 8 →
     extract_from_lines (sample_lines (render_item <$> items))
     = item_pattern <$> items).
Proof.
  intros Hitems. split; [by apply collect_rendered_items|]. intros ->.
  rewrite extract_from_lines_by_suffix. unfold extract_by_suffix, sample_lines.
  erewrite locate_by_suffix_app; [|vm_compute; reflexivity].
  rewrite app_nil_l.
  change (indent_of "        patterns:") with 8.
  rewrite collect_patterns_dedent; [by apply collect_rendered_items|done|].
  vm_compute. lia.
Qed.

Lemma items_read_back_witness :
  Forall (well_formed_item 8) sample_items
  ∧ extract_from_lines (sample_lines (render_item <$> sample_items))
    = ["org.apache.maven.plugins:*"; "com.example.*"].
Proof.
  assert (Forall (well_formed_item 8) sample_items) as H.
  { repeat constructor; simpl; try lia; discriminate. }
  split; [exact H|].
  exact (proj2 (items_read_back 8 sample_items H) eq_refl).
Defined.

(** ** The identity sets *)

Lemma elem_of_ids_within_tree id_of outer inner pom z :
  z ∈ ids_within id_of outer inner ([], pom) ↔
  ∃ p e, z = id_of p ∧ subelement pom p = Some e ∧ tag e = inner
         ∧ insideb pom outer p = true.
Proof.
  rewrite elem_of_ids_within. split.
  - intros ([q a] & [p e] & [Ha (sq & Hq & Hqa)]%elem_of_iter
            & [He (s & Hp & Hs)]%elem_of_iter & ->).
    simpl in *. subst q p. exists (sq ++ s), e. split_and!; [done| |done|].
    + by rewrite subelement_app, Hqa.
    + apply insideb_spec. by exists sq, s, a.
  - intros (p & e & -> & Hsub & He & (q & s & a & -> & Ha & Ht)%insideb_spec).
    exists (q, a), (q ++ s, e). split_and!; [| |done].
    + apply elem_of_iter. simpl. eauto.
    + apply elem_of_iter. split; [done|]. exists s. split; [done|].
      by rewrite subelement_app, Ha in Hsub.
Qed.

Lemma ids_within_size id_of `{!Inj (=) (=) id_of} outer inner pom :
  size (ids_within id_of outer inner ([], pom))
  = length (filter (λ n : Node, insideb pom outer n.1 = true)
                   (iter ([], pom) inner)).
Proof.
  set (inside := filter (λ n : Node, insideb pom outer n.1 = true)
                        (iter ([], pom) inner)).
  assert (ids_within id_of outer inner ([], pom)
          = list_to_set (id_of <$> inside.*1)) as ->.
  { apply set_eq. intros z.
    rewrite elem_of_ids_within_tree, elem_of_list_to_set, list_elem_of_fmap.
    split.
    - intros (p & e & -> & Hsub & He & Hin). exists p. split; [done|].
      apply list_elem_of_fmap. exists (p, e). split; [done|].
      apply list_elem_of_filter. split; [done|]. apply elem_of_iter. eauto.
    - intros (p & -> & ([p' e] & -> & [Hin [He (s & Hs & Hsub)]%elem_of_iter
              ]%list_elem_of_filter)%list_elem_of_fmap).
      simpl in *. subst s. by exists p', e. }
  rewrite size_list_to_set, !length_fmap; [done|].
  apply (NoDup_fmap_2 id_of).
  eapply sublist_NoDup; [apply (iter_NoDup ([], pom) inner)|].
  apply fmap_sublist, sublist_filter.
Qed.

(** X1. Each of the three identity sets holds exactly the ids of the
    elements of the inner kind that sit at or below an element of the outer
    kind ([plugin] under [pluginManagement], [dependency] under
    [dependencyManagement], [dependency] under [plugin]), and its size is
    the number of such elements: an element below several nested outer
    elements is counted once. *)
Theorem identity_sets_exact (id_of : path → Z) (pom : Element) :
  Inj (=) (=) id_of →
  let members (outer inner : string) (z : Z) :=
    ∃ p e, z = id_of p ∧ subelement pom p = Some e ∧ tag e = qn inner
           ∧ insideb pom (qn outer) p = true in
  let count (outer inner : string) :=
    length (filter (λ n : Node, insideb pom (qn outer) n.1 = true)
                   (iter ([], pom) (qn inner))) in
  (∀ z, z ∈ pm_plugin_ids id_of ([], pom) ↔ members "pluginManagement" "plugin" z)
  ∧ (∀ z, z ∈ dm_dependency_ids id_of ([], pom)
          ↔ members "dependencyManagement" "dependency" z)
  ∧ (∀ z, z ∈ plugin_dependency_ids id_of ([], pom) ↔ members "plugin" "dependency" z)
  ∧ size (pm_plugin_ids id_of ([], pom)) = count "pluginManagement" "plugin"
  ∧ size (dm_dependency_ids id_of ([], pom))
    = count "dependencyManagement" "dependency"
  ∧ size (plugin_dependency_ids id_of ([], pom)) = count "plugin" "dependency".
Proof.
  intros Hinj members count. subst members count. simpl.
  unfold pm_plugin_ids, dm_dependency_ids, plugin_dependency_ids.
  split_and!; try (intros z; apply elem_of_ids_within_tree);
    by apply ids_within_size.
Qed.

Lemma identity_sets_exact_witness :
  Inj (=) (=) path_id
  ∧ size (pm_plugin_ids path_id ([], sample_pom)) = 1
  ∧ size (plugin_dependency_ids path_id ([], sample_pom)) = 1.
Proof.
  split; [exact path_id_inj|].
  pose proof (identity_sets_exact path_id sample_pom path_id_inj) as H.
  cbv zeta in H. destruct H as (_ & _ & _ & H1 & _ & H3).
  split; [rewrite H1|rewrite H3]; vm_compute; reflexivity.
Defined.

(** ** When the check passes *)

Lemma flat_map_nil {A B} (f : A → list B) (l : list A) :
  flat_map f l = [] ↔ ∀ x, x ∈ l → f x = [].
Proof.
  induction l as [|x l IH]; simpl.
  - split; [|done]. by intros _ ? ?%elem_of_nil.
  - split.
    + intros [Hx Hl]%app_eq_nil y [->|Hy]%elem_of_cons; [done|]. by apply IH.
    + intros H. rewrite (H x) by left. apply IH. intros y Hy. apply H. by right.
Qed.

Lemma stray_report_nil section e :
  stray_report section e = [] ↔ truthy_text (find e (qn "version")) = None.
Proof. unfold stray_report. by destruct (truthy_text _). Qed.

Lemma finish_exit_status errors :
  exit_status (finish errors) = 0%Z ↔ errors = [].
Proof. by destruct errors. Qed.

(** X10. The script ends with status 0 exactly when no plugin outside
    [pluginManagement] and no dependency outside [dependencyManagement] and
    outside every plugin has a version with text, at least one pattern is
    extracted, every managed groupId is covered by a pattern and every
    pattern covers a managed groupId.  It then prints the confirmation
    alone; in every other case the status is 1 and each message is
    printed to the error stream behind the prefix [ERROR: ]. *)
Theorem exit_status_zero_iff (id_of : path → Z)
    (set_order : gset string → list string) (pom : Element)
    (dependabot_text : string) :
  Inj (=) (=) id_of →
  (∀ X, set_order X ≡ₚ elements X) →
  let patterns := extract_maven_plugins_patterns dependabot_text in
  let outcome := run id_of set_order pom dependabot_text in
  let consistent :=
    (∀ n : Node, n ∈ iter ([], pom) (qn "plugin") →
       insideb pom (qn "pluginManagement") n.1 = false →
       truthy_text (find n.2 (qn "version")) = None)
    ∧ (∀ n : Node, n ∈ iter ([], pom) (qn "dependency") →
         insideb pom (qn "dependencyManagement") n.1 = false →
         insideb pom (qn "plugin") n.1 = false →
         truthy_text (find n.2 (qn "version")) = None)
    ∧ patterns ≠ []
    ∧ (∀ gid, gid ∈ managed_group_ids pom →
         ∃ p, p ∈ patterns ∧ covers_group_id p gid = true)
    ∧ (∀ p, p ∈ patterns →
         ∃ gid, gid ∈ managed_group_ids pom ∧ covers_group_id p gid = true) in
  (exit_status outcome = 0%Z ↔ consistent)
  ∧ (consistent → outcome
       = {| stderr := []; stdout := [ok_message]; exit_status := 0 |})
  ∧ (¬ consistent →
       exit_status outcome = 1%Z ∧ stdout outcome = []
       ∧ stderr outcome
         = (λ e, "ERROR: " +:+ e)
           <$> main id_of set_order pom dependabot_text).
Proof.
  intros Hinj Hperm patterns outcome consistent.
  assert (main id_of set_order pom dependabot_text = [] ↔ consistent) as Hmain.
  { subst consistent. rewrite main_split, version_errors_report by done.
    rewrite collect_pm_group_ids_spec by done. fold patterns. split.
    - intros [[HA HB]%app_eq_nil HC]%app_eq_nil.
      rewrite flat_map_nil in HA. rewrite flat_map_nil in HB.
      destruct patterns as [|p0 ps] eqn:Hp; [done|].
      rewrite (coverage_errors_report _ _ (p0 :: ps)), app_nil_l in HC by done.
      apply app_eq_nil in HC as [HC HD].
      rewrite flat_map_nil in HC. rewrite flat_map_nil in HD.
      split_and!.
      + intros n Hn Hin. specialize (HA n Hn). unfold rule_A_report in HA.
        rewrite Hin in HA. by apply stray_report_nil in HA.
      + intros n Hn H1 H2. specialize (HB n Hn). unfold rule_B_report in HB.
        rewrite H1, H2 in HB. by apply stray_report_nil in HB.
      + done.
      + intros gid Hgid%(elem_of_sorted set_order Hperm). specialize (HC gid Hgid).
        destruct (existsb _ _) eqn:E; [|done]. by apply existsb_true in E.
      + intros p Hp'. specialize (HD p Hp').
        destruct (existsb _ _) eqn:E; [|done].
        by apply (covering_some set_order Hperm) in E.
    - intros (HA & HB & Hne & HC & HD).
      apply app_nil. split; [apply app_nil; split|].
      + apply flat_map_nil. intros n Hn. unfold rule_A_report.
        destruct (insideb _ _ _) eqn:Hin; [done|]. apply stray_report_nil. auto.
      + apply flat_map_nil. intros n Hn. unfold rule_B_report.
        destruct (insideb pom (qn "dependencyManagement") n.1) eqn:H1; [done|].
        destruct (insideb pom (qn "plugin") n.1) eqn:H2; [done|].
        apply stray_report_nil. auto.
      + rewrite coverage_errors_report, app_nil_l by done.
        apply app_nil. split; apply flat_map_nil.
        * intros gid Hgid%(elem_of_sorted set_order Hperm).
          assert (existsb (λ p, covers_group_id p gid) patterns = true) as ->;
            [|done]. apply existsb_true. auto.
        * intros p Hp.
          assert (existsb (λ gid, covers_group_id p gid)
                    (set_order (managed_group_ids pom)) = true) as ->; [|done].
          apply (covering_some set_order Hperm). auto. }
  subst outcome. unfold run. split_and!.
  - by rewrite finish_exit_status.
  - intros Hc%Hmain. by rewrite Hc.
  - intros Hc. destruct (main id_of set_order pom dependabot_text) as [|e es];
      [|done]. destruct Hc. by apply Hmain.
Qed.

Lemma exit_status_zero_iff_witness :
  Inj (=) (=) path_id
  ∧ (∀ X : gset string, elements X ≡ₚ elements X)
  ∧ exit_status (run path_id elements managed_only_pom covering_config) = 0%Z
  ∧ ∀ p, p ∈ extract_maven_plugins_patterns covering_config →
      ∃ gid, gid ∈ managed_group_ids managed_only_pom
             ∧ covers_group_id p gid = true.
Proof.
  assert (exit_status (run path_id elements managed_only_pom covering_config)
          = 0%Z) as H0 by (vm_compute; reflexivity).
  split_and!; [exact path_id_inj|reflexivity|exact H0|].
  pose proof (exit_status_zero_iff path_id elements managed_only_pom
                covering_config path_id_inj (λ X, reflexivity (elements X))) as H.
  cbv zeta in H. destruct H as (H & _ & _).
  exact (proj2 (proj2 (proj2 (proj2 (proj1 H H0))))).
Defined.

(** ** Patterns made of a literal text and a final star *)

Lemma translate_literal_app d s :
  literal d = true →
  Fnmatch.translate (d +:+ s) = (Fnmatch.Lit <$> chars d) ++ Fnmatch.translate s.
Proof.
  unfold literal, Fnmatch.translate. induction d as [|c d IH]; [done|].
  intros [Hc Hd]%andb_true_iff. rewrite string_app_cons.
  cbn [Fnmatch.translate_from chars String.list_ascii_of_string fmap list_fmap app].
  unfold is_wild in Hc. apply negb_true_iff in Hc.
  apply orb_false_iff in Hc as [Hc H3]. apply orb_false_iff in Hc as [H1 H2].
  rewrite H1, H2, H3. f_equal. by apply IH.
Qed.

Lemma matches_literal_prefix d ts s :
  Fnmatch.matches ((Fnmatch.Lit <$> chars d) ++ ts) s
  = Py.startswith s d && Fnmatch.matches ts (Py.drop_prefix s d).
Proof.
  revert s. induction d as [|c d IH]; intros s; simpl; [by destruct s|].
  destruct s as [|a s]; [done|]. by rewrite IH, andb_assoc.
Qed.

Lemma star_matches_all s : Fnmatch.matches [Fnmatch.Star] s = true.
Proof. apply matches_Matches. rewrite <-(string_app_nil_r s). repeat constructor. Qed.

Lemma covers_literal_star d g :
  literal d = true →
  covers_group_id (d +:+ "*") g = Py.startswith (g +:+ ":DUMMY") d.
Proof.
  intros Hd. unfold covers_group_id. rewrite fnmatch_matches.
  rewrite translate_literal_app by done.
  change (Fnmatch.translate "*") with [Fnmatch.Star].
  by rewrite matches_literal_prefix, star_matches_all, andb_true_r.
Qed.

(** X11. A pattern made of a text without wildcard characters followed by
    a star covers exactly the groupIds for which the text is a prefix of
    the groupId followed by [:DUMMY]. *)
Theorem prefix_pattern_covers (d g : string) :
  literal d = true →
  covers_group_id (d +:+ "*") g = Py.startswith (g +:+ ":DUMMY") d.
Proof. apply covers_literal_star. Qed.

Lemma prefix_pattern_covers_witness :
  literal "com.example." = true
  ∧ covers_group_id ("com.example." +:+ "*") "com.example.tools"
    = Py.startswith ("com.example.tools" +:+ ":DUMMY") "com.example.".
Proof.
  assert (literal "com.example." = true) as H by (vm_compute; reflexivity).
  split; [exact H|].
  exact (prefix_pattern_covers "com.example." "com.example.tools" H).
Defined.

Lemma startswith_to_colon g d x :
  colon_free g = true → colon_free d = true →
  Py.startswith (g +:+ String ":" x) (d +:+ ":") = true ↔ g = d.
Proof.
  unfold colon_free. revert d. induction g as [|a g IH]; intros [|c d]; simpl.
  - intros _ _. by destruct x.
  - intros _ [Hc _]%andb_true_iff. case_bool_decide as E; [by subst c|done].
  - intros [Ha _]%andb_true_iff _. case_bool_decide as E; [by subst a|done].
  - intros [Ha Hg]%andb_true_iff [Hc Hd]%andb_true_iff.
    rewrite andb_true_iff, bool_decide_eq_true, (IH d Hg Hd).
    split; [by intros [-> ->]|by intros [= -> ->]].
Qed.

Lemma bare_literal d : bare d = true → literal d = true ∧ colon_free d = true.
Proof.
  unfold bare, literal, colon_free. induction d as [|c d IH]; [done|]. simpl.
  intros [Hc Hd]%andb_true_iff. destruct (IH Hd) as [-> ->].
  apply negb_true_iff, orb_false_iff in Hc as [-> ->]. done.
Qed.

Lemma covers_exact_group d g :
  bare d = true →
  colon_free g = true →
  covers_group_id (d +:+ ":*") g = true ↔ g = d.
Proof.
  intros [Hlit Hcol]%bare_literal Hg.
  change (d +:+ ":*") with (d +:+ (":" +:+ "*")).
  rewrite <-string_app_assoc, covers_literal_star.
  - change (g +:+ ":DUMMY") with (g +:+ String ":" "DUMMY").
    by apply startswith_to_colon.
  - unfold literal in *. by rewrite all_chars_app, Hlit.
Qed.

(** X12. Among groupIds without a colon, the pattern made of a group
    without wildcard characters or colon, a colon and a star covers that
    group and no other. *)
Theorem exact_group_pattern (d g : string) :
  bare d = true →
  colon_free g = true →
  covers_group_id (d +:+ ":*") g = true ↔ g = d.
Proof. apply covers_exact_group. Qed.

Lemma exact_group_pattern_witness :
  bare "org.foo" = true
  ∧ colon_free "org.foo.bar" = true
  ∧ covers_group_id ("org.foo" +:+ ":*") "org.foo.bar" ≠ true.
Proof.
  assert (bare "org.foo" = true) as H1 by (vm_compute; reflexivity).
  assert (colon_free "org.foo.bar" = true) as H2 by (vm_compute; reflexivity).
  split_and!; [exact H1|exact H2|].
  intros H%(exact_group_pattern "org.foo" "org.foo.bar" H1 H2). discriminate H.
Defined.

(** ** The order of the report *)

Lemma flat_map_reported {A} (f : A → string) (ok : A → bool) (l : list A) :
  flat_map (λ x, if ok x then [] else [f x]) l
  = f <$> filter (λ x, ok x = false) l.
Proof.
  induction l as [|x l IH]; [done|]. simpl. rewrite filter_cons, IH.
  destruct (ok x); [by rewrite decide_False|by rewrite decide_True].
Qed.

Lemma StronglySorted_filter {A} (R : relation A) (P : A → Prop)
    `{∀ x, Decision (P x)} l :
  StronglySorted R l → StronglySorted R (filter P l).
Proof.
  induction 1 as [|x l Hl IH Hx]; [constructor|].
  rewrite filter_cons. case_decide; [|done]. constructor; [done|].
  rewrite Forall_forall in Hx. apply Forall_forall.
  intros y [_ Hy]%list_elem_of_filter. by apply Hx.
Qed.

Lemma StronglySorted_strict l :
  StronglySorted String.le l → NoDup l → StronglySorted string_lt l.
Proof.
  induction 1 as [|x l Hl IH Hx]; [constructor|].
  intros [Hnotin Hnd]%NoDup_cons. constructor; [by apply IH|].
  rewrite Forall_forall in Hx. apply Forall_forall. intros y Hy.
  split; [by apply Hx|]. by intros ->.
Qed.

(** X13. With at least one extracted pattern the report is, in this order:
    the messages of check 1 in document order, those of check 2 in document
    order, one message for each uncovered managed groupId in strictly
    ascending order of the groupIds, and one message for each stale pattern
    in the order of the configuration. *)
Theorem report_order (id_of : path → Z) (set_order : gset string → list string)
    (pom : Element) (dependabot_text : string) :
  Inj (=) (=) id_of →
  (∀ X, set_order X ≡ₚ elements X) →
  let patterns := extract_maven_plugins_patterns dependabot_text in
  patterns ≠ [] →
  ∃ gids,
    main id_of set_order pom dependabot_text
    = flat_map (rule_A_report pom) (iter ([], pom) (qn "plugin"))
      ++ flat_map (rule_B_report pom) (iter ([], pom) (qn "dependency"))
      ++ (uncovered_message <$> gids)
      ++ (stale_message
          <$> filter (λ p, existsb (λ gid, covers_group_id p gid)
                             (elements (managed_group_ids pom)) = false)
                     patterns)
    ∧ StronglySorted string_lt gids
    ∧ ∀ gid, gid ∈ gids ↔
        gid ∈ managed_group_ids pom
        ∧ ∀ p, p ∈ patterns → covers_group_id p gid = false.
Proof.
  intros Hinj Hperm patterns Hne.
  exists (filter (λ gid, existsb (λ p, covers_group_id p gid) patterns = false)
            (merge_sort String.le (set_order (managed_group_ids pom)))).
  split_and!.
  - rewrite main_split, version_errors_report, collect_pm_group_ids_spec by done.
    fold patterns. rewrite coverage_errors_report, app_nil_l by done.
    rewrite !flat_map_reported, <-(assoc_L (++)). do 4 f_equal.
    apply list_filter_iff. intros p.
    destruct (existsb _ (elements _)) eqn:E.
    + apply existsb_true in E as (g & Hg%elem_of_elements & Hc).
      assert (existsb (λ gid, covers_group_id p gid)
                (set_order (managed_group_ids pom)) = true) as ->; [|done].
      apply (covering_some set_order Hperm). eauto.
    + assert (existsb (λ gid, covers_group_id p gid)
                (set_order (managed_group_ids pom)) = false) as ->; [|done].
      apply (covering_none set_order Hperm). intros g Hg.
      rewrite existsb_false in E. apply E. by apply elem_of_elements.
  - apply StronglySorted_filter, StronglySorted_strict.
    + apply (StronglySorted_merge_sort String.le).
    + by apply sorted_NoDup.
  - intros gid. rewrite list_elem_of_filter, (elem_of_sorted set_order Hperm).
    rewrite existsb_false. tauto.
Qed.

Lemma report_order_witness :
  Inj (=) (=) path_id
  ∧ (∀ X : gset string, elements X ≡ₚ elements X)
  ∧ extract_maven_plugins_patterns sample_config ≠ []
  ∧ ∃ gids, StronglySorted string_lt gids
      ∧ ∀ gid, gid ∈ gids ↔
          gid ∈ managed_group_ids sample_pom
          ∧ ∀ p, p ∈ extract_maven_plugins_patterns sample_config →
                 covers_group_id p gid = false.
Proof.
  assert (extract_maven_plugins_patterns sample_config ≠ []) as Hne
    by (vm_compute; discriminate).
  split_and!; [exact path_id_inj|reflexivity|exact Hne|].
  destruct (report_order path_id elements sample_pom sample_config path_id_inj
              (λ X, reflexivity (elements X)) Hne) as (gids & _ & Hs & Hg).
  exists gids. split; [exact Hs|exact Hg].
Defined.

(** ** The order on version keys *)

Module SiteFacts.
Import Site.

Lemma string_compare_lt_trans a b c :
  String.compare a b = Lt → String.compare b c = Lt → String.compare a c = Lt.
Proof.
  intros Hab Hbc.
  assert (String.le a c) as Hac.
  { transitivity b; unfold String.le, String.leb; [by rewrite Hab|by rewrite Hbc]. }
  unfold String.le, String.leb in Hac.
  destruct (String.compare a c) eqn:E; [|done|done].
  apply String.compare_eq_iff in E as ->.
  rewrite String.compare_antisym, Hbc in Hab. done.
Qed.

Lemma string_compare_refl s : String.compare s s = Eq.
Proof.
  induction s as [|c s IH]; simpl; [done|].
  unfold Ascii.compare. by rewrite N.compare_refl.
Qed.

Lemma component_compare_eq a b : component_compare a b = Eq ↔ a = b.
Proof.
  destruct a as [n|x], b as [m|y]; simpl; try done.
  - rewrite N.compare_eq_iff. split; [by intros ->|by intros [= ->]].
  - split; [by intros ->%String.compare_eq_iff|].
    intros [= ->]. apply string_compare_refl.
Qed.

Lemma component_compare_antisym a b :
  component_compare b a = CompOpp (component_compare a b).
Proof.
  destruct a as [n|x], b as [m|y]; simpl; try done.
  - apply N.compare_antisym.
  - apply String.compare_antisym.
Qed.

Lemma component_compare_lt_trans a b c :
  component_compare a b = Lt → component_compare b c = Lt →
  component_compare a c = Lt.
Proof.
  destruct a as [n|x], b as [m|y], c as [k|z]; simpl; try done.
  - rewrite !N.compare_lt_iff. lia.
  - apply string_compare_lt_trans.
Qed.

Lemma key_compare_eq k1 k2 : key_compare k1 k2 = Eq ↔ k1 = k2.
Proof.
  revert k2. induction k1 as [|a k1 IH]; intros [|b k2]; simpl; try done.
  destruct (component_compare a b) eqn:E.
  - apply component_compare_eq in E as ->. rewrite IH.
    split; [by intros ->|by intros [= ->]].
  - split; [done|]. intros [= -> ->].
    by rewrite (proj2 (component_compare_eq b b) eq_refl) in E.
  - split; [done|]. intros [= -> ->].
    by rewrite (proj2 (component_compare_eq b b) eq_refl) in E.
Qed.

Lemma key_compare_antisym k1 k2 :
  key_compare k2 k1 = CompOpp (key_compare k1 k2).
Proof.
  revert k2. induction k1 as [|a k1 IH]; intros [|b k2]; simpl; try done.
  rewrite (component_compare_antisym a b).
  destruct (component_compare a b); simpl; [apply IH|done..].
Qed.

Lemma key_compare_lt_trans k1 k2 k3 :
  key_compare k1 k2 = Lt → key_compare k2 k3 = Lt → key_compare k1 k3 = Lt.
Proof.
  revert k2 k3. induction k1 as [|a k1 IH]; intros [|b k2] [|c k3]; simpl;
    try done.
  destruct (component_compare a b) eqn:Hab; [|clear IH|done].
  - apply component_compare_eq in Hab as ->.
    destruct (component_compare b c); [apply IH|done..].
  - intros _. destruct (component_compare b c) eqn:Hbc; [| |done].
    + apply component_compare_eq in Hbc as <-. by rewrite Hab.
    + by rewrite (component_compare_lt_trans _ _ _ Hab Hbc).
Qed.

Lemma key_le_trans k1 k2 k3 : key_le k1 k2 → key_le k2 k3 → key_le k1 k3.
Proof.
  unfold key_le. intros H12 H23 H13.
  destruct (key_compare k1 k2) eqn:E12; [|clear H12|done].
  - apply key_compare_eq in E12 as ->. done.
  - destruct (key_compare k2 k3) eqn:E23; [|clear H23|done].
    + apply key_compare_eq in E23 as ->. by rewrite E12 in H13.
    + by rewrite (key_compare_lt_trans _ _ _ E12 E23) in H13.
Qed.

Lemma key_le_total k1 k2 : key_le k1 k2 ∨ key_le k2 k1.
Proof.
  unfold key_le. rewrite (key_compare_antisym k1 k2).
  destruct (key_compare k1 k2); simpl; auto.
Qed.

(** ** Sorting the releases *)

Lemma insert_desc_Permutation x l : insert_desc x l ≡ₚ x :: l.
Proof.
  induction l as [|y l IH]; simpl; [done|].
  destruct (key_compare x.2 y.2); [done| |done].
  by rewrite IH, Permutation_swap.
Qed.

Lemma sorted_desc_Permutation l : sorted_desc l ≡ₚ l.
Proof.
  induction l as [|x l IH]; simpl; [done|].
  by rewrite insert_desc_Permutation, IH.
Qed.

Lemma insert_desc_sorted x l :
  StronglySorted (λ a b : keyed, key_le b.2 a.2) l →
  StronglySorted (λ a b : keyed, key_le b.2 a.2) (insert_desc x l).
Proof.
  induction 1 as [|y l Hl IH Hy]; simpl; [repeat constructor|].
  destruct (key_compare x.2 y.2) eqn:E.
  - constructor; [by constructor|]. constructor.
    + unfold key_le. by rewrite (key_compare_antisym x.2 y.2), E.
    + eapply Forall_impl; [exact Hy|]. intros z Hz. simpl in *.
      eapply key_le_trans; [exact Hz|].
      unfold key_le. by rewrite (key_compare_antisym x.2 y.2), E.
  - constructor; [done|]. rewrite insert_desc_Permutation. constructor; [|done].
    unfold key_le. by rewrite E.
  - constructor; [by constructor|]. constructor.
    + unfold key_le. by rewrite (key_compare_antisym x.2 y.2), E.
    + eapply Forall_impl; [exact Hy|]. intros z Hz. simpl in *.
      eapply key_le_trans; [exact Hz|].
      unfold key_le. by rewrite (key_compare_antisym x.2 y.2), E.
Qed.

Lemma sorted_desc_sorted l :
  StronglySorted (λ a b : keyed, key_le b.2 a.2) (sorted_desc l).
Proof.
  induction l as [|x l IH]; simpl; [constructor|]. by apply insert_desc_sorted.
Qed.

End SiteFacts.

(** ** The release list *)




Lemma split_nonempty v : Site.split v ≠ [].
Proof.
  destruct v as [|c v]; simpl; [done|].
  destruct (Site.is_sep c); [done|]. by destruct (Site.split v).
Qed.

Lemma split_app v c w :
  Site.is_sep c = true →
  Site.split (v +:+ String c w) = Site.split v ++ Site.split w.
Proof.
  intros Hc. induction v as [|a v IH].
  - rewrite string_app_nil_l. simpl. by rewrite Hc.
  - rewrite string_app_cons. simpl. rewrite IH.
    destruct (Site.is_sep a); [done|].
    pose proof (split_nonempty v). by destruct (Site.split v).
Qed.

Lemma mapM_app_Some {A B} (f : A → option B) l1 l2 k1 k2 :
  mapM f l1 = Some k1 → mapM f l2 = Some k2 →
  mapM f (l1 ++ l2) = Some (k1 ++ k2).
Proof.
  rewrite !mapM_Some. apply Forall2_app.
Qed.

Lemma key_lt_extension k1 k2 : k2 ≠ [] → Site.key_lt k1 (k1 ++ k2).
Proof.
  intros Hk2. unfold Site.key_lt. induction k1 as [|a k1 IH]; simpl.
  - by destruct k2.
  - by rewrite (proj2 (SiteFacts.component_compare_eq a a) eq_refl).
Qed.

(** X15. Joining two version names with a dot or a dash joins their keys,
    and the joined name ranks strictly above the first one: every release
    is listed below its own extensions, such as a release with a qualifier
    or a further number appended. *)
Theorem version_extension_ranks_above (v w : string) (c : ascii)
    (kv kw : list Site.component) :
  Site.is_sep c = true →
  Site.version_key v = Some kv →
  Site.version_key w = Some kw →
  Site.version_key (v +:+ String c w) = Some (kv ++ kw)
  ∧ Site.key_lt kv (kv ++ kw).
Proof.
  intros Hc Hv Hw. unfold Site.version_key in *. split.
  - rewrite split_app by done. by apply mapM_app_Some.
  - apply key_lt_extension. intros ->.
    apply mapM_Some, Forall2_nil_inv_r in Hw. by apply split_nonempty in Hw.
Qed.

Lemma version_extension_ranks_above_witness :
  Site.is_sep "-" = true
  ∧ Site.version_key "1.0" = Some [Site.Num 1; Site.Num 0]
  ∧ Site.version_key "beta" = Some [Site.Word "beta"]
  ∧ Site.version_key "1.0-beta"
    = Some ([Site.Num 1; Site.Num 0] ++ [Site.Word "beta"])
  ∧ Site.key_lt [Site.Num 1; Site.Num 0]
      ([Site.Num 1; Site.Num 0] ++ [Site.Word "beta"]).
Proof.
  assert (Site.is_sep "-" = true) as H1 by reflexivity.
  assert (Site.version_key "1.0" = Some [Site.Num 1; Site.Num 0]) as H2
    by reflexivity.
  assert (Site.version_key "beta" = Some [Site.Word "beta"]) as H3
    by reflexivity.
  split_and!; [exact H1|exact H2|exact H3|..];
    apply (version_extension_ranks_above "1.0" "beta" "-" _ _ H1 H2 H3).
Defined.

Lemma versions_keyed entries vs :
  Site.versions entries = Some vs →
  ∃ ks, Forall2 (λ name (nk : Site.keyed),
                   nk.1 = name ∧ Site.version_key name = Some nk.2)
                (Site.release_names entries) ks
        ∧ vs = (Site.sorted_desc ks).*1.
Proof.
  unfold Site.versions. destruct (mapM _ _) as [ks|] eqn:Hks; [|done].
  simpl. intros [= <-]. exists ks. split; [|done].
  apply mapM_Some in Hks. eapply Forall2_impl; [exact Hks|].
  intros name [n k] Hk. simpl in *.
  destruct (Site.version_key name); by simplify_eq/=.
Qed.

Lemma versions_sorted_ranks entries vs :
  Site.versions entries = Some vs →
  vs ≡ₚ Site.release_names entries ∧ StronglySorted ranks_above vs.
Proof.
  intros (ks & Hks & ->)%versions_keyed.
  assert (ks.*1 = Site.release_names entries) as Hnames.
  { clear -Hks. induction Hks as [|n nk ns ks [Hn _] _ IH]; [done|].
    by rewrite fmap_cons, Hn, IH. }
  assert (Forall (λ nk : Site.keyed, Site.version_key nk.1 = Some nk.2) ks)
    as Hkeys.
  { clear -Hks. induction Hks as [|n nk ns ks [Hn Hk] _ IH]; constructor; [|done].
    by rewrite Hn. }
  split.
  - by rewrite SiteFacts.sorted_desc_Permutation, Hnames.
  - rewrite <-(SiteFacts.sorted_desc_Permutation ks) in Hkeys.
    pose proof (SiteFacts.sorted_desc_sorted ks) as Hs.
    induction Hs as [|x l Hl IH Hx]; [constructor|].
    apply Forall_cons in Hkeys as [Hkx Hkl]. rewrite fmap_cons.
    constructor; [by apply IH|].
    rewrite Forall_fmap. rewrite Forall_forall in Hx, Hkl.
    apply Forall_forall. intros y Hy. exists x.2, y.2. simpl.
    split_and!; [done|by apply Hkl|by apply Hx].
Qed.

Lemma elem_of_release_names entries name :
  name ∈ Site.release_names entries ↔
  (name, true) ∈ entries ∧ Site.starts_with_digit name = true.
Proof.
  unfold Site.release_names. rewrite list_elem_of_fmap. split.
  - intros ([n d] & -> & [[Hd Hs] Hin]%list_elem_of_filter). simpl in *.
    by subst d.
  - intros [Hin Hs]. exists (name, true). split; [done|].
    by apply list_elem_of_filter.
Qed.

Lemma versions_keys_exist entries vs name :
  Site.versions entries = Some vs →
  name ∈ Site.release_names entries → is_Some (Site.version_key name).
Proof.
  intros (ks & Hks & _)%versions_keyed Hin.
  induction Hks as [|n nk ns ks [_ Hk] _ IH]; [by apply elem_of_nil in Hin|].
  apply elem_of_cons in Hin as [->|Hin]; [by rewrite Hk|by apply IH].
Qed.

Lemma versions_None entries :
  Site.versions entries = None →
  ∃ name, (name, true) ∈ entries ∧ Site.starts_with_digit name = true
          ∧ Site.version_key name = None.
Proof.
  unfold Site.versions. destruct (mapM _ _) as [ks|] eqn:Hks; [done|]. intros _.
  apply mapM_None, Exists_exists in Hks as (name & Hin & Hk).
  apply elem_of_release_names in Hin as [Hin Hs]. exists name.
  split_and!; [done..|]. by destruct (Site.version_key name).
Qed.

(** X16. The release list fails exactly when the key of one of the names
    of the store that are directories and start with a decimal digit fails,
    also when there is a single such name.  Otherwise every such name has a
    key, and the list holds exactly these names, each as often as it is
    listed, ordered so that every name ranks at least as high as all names
    after it. *)
Theorem versions_sorted_descending (entries : list (string * bool)) :
  (Site.versions entries = None ↔
   ∃ name, (name, true) ∈ entries ∧ Site.starts_with_digit name = true
           ∧ Site.version_key name = None)
  ∧ match Site.versions entries with
    | Some vs =>
        vs ≡ₚ Site.release_names entries
        ∧ StronglySorted ranks_above vs
        ∧ (∀ v, v ∈ vs ↔ (v, true) ∈ entries ∧ Site.starts_with_digit v = true)
        ∧ (∀ v, v ∈ vs → is_Some (Site.version_key v))
    | None =>
        ∃ name, (name, true) ∈ entries ∧ Site.starts_with_digit name = true
                ∧ Site.version_key name = None
    end.
Proof.
  split.
  - split; [apply versions_None|].
    intros (name & Hin & Hs & Hk).
    destruct (Site.versions entries) as [vs|] eqn:Hv; [|done].
    assert (name ∈ Site.release_names entries) as Hn
      by by apply elem_of_release_names.
    destruct (versions_keys_exist _ _ _ Hv Hn) as [k Hk']. congruence.
  - destruct (Site.versions entries) as [vs|] eqn:Hv; [|by apply versions_None].
    destruct (versions_sorted_ranks entries vs Hv) as [Hp Hs].
    split_and!; [done..| |].
    + intros v. by rewrite Hp, elem_of_release_names.
    + intros v Hin. apply (versions_keys_exist entries vs); [done|].
      by rewrite <-Hp.
Qed.

(** X17. The version shown for the latest release is the trimmed content
    of the stored file when that is not empty.  When the file cannot be read
    or holds white space only, it is the first name of the release list,
    which ranks at least as high as every release directory, or the empty
    text when there is no release. *)
Theorem latest_version_fallback (entries : list (string * bool))
    (vs : list string) (file : option string) :
  Site.versions entries = Some vs →
  (∀ content, file = Some content →
     Py.all_chars Py.isspace content = false →
     Site.latest_version file vs = Py.strip content)
  ∧ (file = None
     ∨ (∃ content, file = Some content
                   ∧ Py.all_chars Py.isspace content = true) →
     match vs with
     | [] => Site.latest_version file vs = EmptyString
     | v :: _ =>
         Site.latest_version file vs = v
         ∧ ∀ w, (w, true) ∈ entries → Site.starts_with_digit w = true →
                w = v ∨ ranks_above v w
     end).
Proof.
  intros Hv. split.
  - intros content -> Hsp. unfold Site.latest_version. simpl.
    destruct (Py.strip content) eqn:Hs; [|done].
    apply strip_empty_iff in Hs. by rewrite Hs in Hsp.
  - intros Hfile.
    assert (Site.latest_version file vs = default EmptyString (head vs)) as ->.
    { unfold Site.latest_version.
      destruct Hfile as [->|(content & -> & Hsp%strip_empty_iff)]; [done|].
      simpl. by rewrite Hsp. }
    destruct vs as [|v vs]; [done|]. split; [done|].
    destruct (versions_sorted_ranks entries _ Hv) as [Hp Hs].
    intros w Hw Hd.
    assert (w ∈ v :: vs) as [->|Hin]%elem_of_cons
      by (rewrite Hp; by apply elem_of_release_names).
    + by left.
    + right. apply StronglySorted_inv in Hs as [_ Hs].
      rewrite Forall_forall in Hs. by apply Hs.
Qed.

Lemma latest_version_fallback_witness :
  Site.versions [("1.9", true); ("latest", true); ("1.10", true); ("2.0", false)]
  = Some ["1.10"; "1.9"]
  ∧ Site.latest_version None ["1.10"; "1.9"] = "1.10"
  ∧ ranks_above "1.10" "1.9".
Proof.
  assert (Site.versions
            [("1.9", true); ("latest", true); ("1.10", true); ("2.0", false)]
          = Some ["1.10"; "1.9"]) as H by reflexivity.
  split; [exact H|].
  destruct (proj2 (latest_version_fallback _ _ None H) (or_introl eq_refl))
    as [H1 H2].
  split; [exact H1|].
  assert (("1.9", true)
          ∈ [("1.9", true); ("latest", true); ("1.10", true); ("2.0", false)])
    as Hin by left.
  destruct (H2 "1.9" Hin eq_refl) as [E|Hr]; [discriminate E|exact Hr].
Defined.

(** ** Coordinates and the accepted configuration *)

Lemma rstrip_idemp s : Py.rstrip (Py.rstrip s) = Py.rstrip s.
Proof.
  induction s as [|c s IH]; [done|]. simpl.
  destruct (Py.rstrip s) as [|d r] eqn:Hr.
  - destruct (Py.isspace c) eqn:Hc; [done|]. simpl. by rewrite Hc.
  - simpl. simpl in IH. by rewrite IH.
Qed.

Lemma lstrip_head s :
  match Py.lstrip s with
  | String c _ => Py.isspace c = false
  | EmptyString => True
  end.
Proof.
  induction s as [|c s IH]; [done|]. simpl.
  destruct (Py.isspace c) eqn:Hc; [done|]. done.
Qed.

Lemma strip_head s :
  match Py.strip s with
  | String c _ => Py.isspace c = false
  | EmptyString => True
  end.
Proof.
  unfold Py.strip. pose proof (lstrip_head s) as H.
  destruct (Py.lstrip s) as [|c r]; [done|]. simpl.
  destruct (Py.rstrip r); [by rewrite H|done].
Qed.

Lemma strip_idemp s : Py.strip (Py.strip s) = Py.strip s.
Proof.
  pose proof (strip_head s) as H. unfold Py.strip at 1.
  assert (Py.lstrip (Py.strip s) = Py.strip s) as ->.
  { destruct (Py.strip s) as [|c r]; [done|]. simpl. by rewrite H. }
  unfold Py.strip. apply rstrip_idemp.
Qed.

(** X18. Both coordinates returned for an element are free of leading and
    trailing white space: trimming them again changes nothing. *)
Theorem coordinates_trimmed (element : Element) :
  Py.strip (artifact_coords element).1 = (artifact_coords element).1
  ∧ Py.strip (artifact_coords element).2 = (artifact_coords element).2.
Proof.
  unfold artifact_coords. simpl. split.
  - destruct (truthy_text _); [apply strip_idemp|reflexivity].
  - destruct (truthy_text _); [apply strip_idemp|reflexivity].
Qed.


